(** * Cyberchess Arena: the move negotiator, the game director and the archiver

    A shallow embedding of [cyberchess.py] and the properties its
    specification states about it.

    The module is a sequential Python script.  Its three functions are
    embedded as computations in a state-and-exception monad over an explicit
    [World]: the remote model session, the random generator, the engine
    processes, the console, the clock and the file system.  The libraries the
    script imports (python-chess, google-generativeai, random, datetime) are
    not part of it: they appear as interfaces (type classes), except for the
    coordinate notation of moves, which is written out.

    The file in the repository carries several of its hunks twice, once with
    and once without explanatory comments.  Three of the repeated fragments
    cannot be parsed and are left out: the truncated first copy of the retry
    loop (lines 105-117, a [try] without handler), the first [while] header
    of the game loop (line 194, a loop without body) and the remnant of the
    older docstring of [save_game_data] (lines 264-266).  Every other
    statement is embedded where it stands, also when it repeats the
    statement before it; of two definitions of one function the later one is
    the function ([get_gemini_move], line 81). *)

From Stdlib Require Import ZArith NArith Ascii String List Lia DecimalString.
From Stdlib Require QArith_base.
From stdpp Require Import base option list gmap.

Set Default Goal Selector "!".

(** ** Python text *)

(** A Python [str] is a sequence of Unicode code points. *)
Definition char : Type := N.
Abbreviation str := (list char).

(** String literals of the source, read as code points (the literals of the
    script are ASCII). *)
Fixpoint lit (s : string) : str :=
  match s with
  | EmptyString => []
  | String c s' => N_of_ascii c :: lit s'
  end.

Definition NEWLINE : char := 10%N.
Definition SPACE : char := 32%N.
Definition BACKTICK : char := 96%N.
Definition QUOTE : char := 39%N.

(** [str.isspace] on one code point: the characters [str.strip()] removes. *)
Definition isspace (c : char) : bool :=
  ((9 <=? c) && (c <=? 13) || (28 <=? c) && (c <=? 32)
   || (c =? 133) || (c =? 160) || (c =? 5760)
   || (8192 <=? c) && (c <=? 8202)
   || (c =? 8232) || (c =? 8233) || (c =? 8239) || (c =? 8287)
   || (c =? 12288))%N.

Fixpoint lstrip (s : str) : str :=
  match s with
  | [] => []
  | c :: s' => if isspace c then lstrip s' else s
  end.

Definition rstrip (s : str) : str := rev (lstrip (rev s)).

(** [s.strip()] *)
Definition strip (s : str) : str := rstrip (lstrip s).

(** [s.replace(c, "")] for a one-character [c]: every occurrence is dropped. *)
Definition replace_with_empty (c : char) (s : str) : str :=
  filter (λ x, x ≠ c) s.

(** [sep.join(parts)] *)
Fixpoint join (sep : str) (parts : list str) : str :=
  match parts with
  | [] => []
  | [p] => p
  | p :: ps => p ++ sep ++ join sep ps
  end.

(** [s.startswith(prefix)] and [needle in s] *)
Fixpoint startswith (s prefix : str) : bool :=
  match prefix, s with
  | [], _ => true
  | c :: prefix', d :: s' => if decide (c = d) then startswith s' prefix' else false
  | _ :: _, [] => false
  end.

Fixpoint contains (needle s : str) : bool :=
  startswith s needle ||
  match s with
  | [] => false
  | _ :: s' => contains needle s'
  end.

(** [str(n)] for an [int]. *)
Definition str_of_Z (n : Z) : str := lit (NilZero.string_of_int (Z.to_int n)).

(** Lines 121 and 124: the candidate token cut out of [response.text]. *)
Definition sanitize (text : str) : str :=
  let move_str := replace_with_empty SPACE (replace_with_empty NEWLINE (strip text)) in
  let move_str := replace_with_empty BACKTICK move_str in
  move_str.

(** The sanitizing rule in the specification's words: the surrounding
    whitespace is stripped, and of what remains exactly the newlines, the
    spaces and the backticks are removed. *)
Definition sanitize_spec (raw : str) : str :=
  filter (λ c, c ≠ NEWLINE ∧ c ≠ SPACE ∧ c ≠ BACKTICK) (strip raw).

(** ** The coordinate notation of python-chess

    Modelled from the spec: [chess.Move], [Move.uci] and [Move.from_uci]
    belong to the python-chess package, which the script imports and which
    is not part of it.  The notation is the one of section 6: source square,
    destination square, optional promotion letter; [0000] is the null move
    and [P@e4] a drop, as in the package. *)

Definition Square : Type := nat.
Definition PieceType : Type := nat.

Definition FILE_NAMES : list char := lit "abcdefgh".
Definition RANK_NAMES : list char := lit "12345678".

(** [SQUARE_NAMES = [f + r for r in RANK_NAMES for f in FILE_NAMES]] *)
Definition SQUARE_NAMES : list str :=
  flat_map (λ r, map (λ f, [f; r]) FILE_NAMES) RANK_NAMES.

(** [PIECE_SYMBOLS = [None, "p", "n", "b", "r", "q", "k"]] *)
Definition PIECE_SYMBOLS : list (option char) :=
  None :: map Some (lit "pnbrqk").

(** [l.index(x)]: the first position of [x]; [None] stands for the
    [ValueError] of a missing element. *)
Fixpoint index {A} `{EqDecision A} (x : A) (l : list A) : option nat :=
  match l with
  | [] => None
  | y :: l' => if decide (y = x) then Some 0 else S <$> index x l'
  end.

Record Move : Type := mkMove {
  from_square : Square;
  to_square : Square;
  promotion : option PieceType;
  drop : option PieceType;
}.

#[global] Instance Move_eq_dec : EqDecision Move.
Proof. solve_decision. Defined.

(** [Move.null()] *)
Definition null : Move := mkMove 0 0 None None.

(** Truth value of an [Optional[int]]. *)
Definition truthy (o : option nat) : bool :=
  match o with
  | Some (S _) => true
  | _ => false
  end.

Definition piece_symbol (piece_type : PieceType) : str :=
  match PIECE_SYMBOLS !! piece_type with
  | Some (Some c) => [c]
  | _ => []
  end.

(** [c.upper()] and [c.lower()] on the letters that matter for piece
    symbols: the ASCII letters, and the Kelvin sign, whose lower case is
    [k]. *)
Definition upper (c : char) : char :=
  if ((97 <=? c) && (c <=? 122))%N then (c - 32)%N else c.
Definition lower (c : char) : char :=
  if ((65 <=? c) && (c <=? 90))%N then (c + 32)%N
  else if (c =? 8490)%N then 107%N else c.

(** [move.uci()]; squares and piece types outside their ranges render as
    empty text. *)
Definition uci (move : Move) : str :=
  let square_name sq := default [] (SQUARE_NAMES !! sq) in
  if truthy (drop move) then
    map upper (piece_symbol (default 0 (drop move))) ++ lit "@" ++ square_name (to_square move)
  else if truthy (promotion move) then
    square_name (from_square move) ++ square_name (to_square move)
      ++ piece_symbol (default 0 (promotion move))
  else if (0 <? from_square move) || (0 <? to_square move) then
    square_name (from_square move) ++ square_name (to_square move)
  else lit "0000".

(** The exceptions that occur.  All of them are instances of [Exception]. *)
Inductive Exn : Type :=
  | InvalidMoveError (what : str) (uci : str)
      (** [chess.InvalidMoveError(f"{what}: {uci!r}")], a [ValueError] *)
  | IndexError (message : str)
  | Fault (message : str)
      (** an exception of an external collaborator; [message] is [str(e)] *).

Inductive Result (A : Type) : Type :=
  | Ok (a : A)
  | Raised (e : Exn).
Arguments Ok {A} a.
Arguments Raised {A} e.

(** [chess.Move.from_uci(uci)] *)
Definition from_uci (uci : str) : Result Move :=
  if decide (uci = lit "0000") then Ok null
  else if decide (length uci = 4 ∧ uci !! 1 = Some 64%N) then
    match index (lower <$> uci !! 0) PIECE_SYMBOLS, index (List.skipn 2 uci) SQUARE_NAMES with
    | Some drop, Some square => Ok (mkMove square square None (Some drop))
    | _, _ => Raised (InvalidMoveError (lit "invalid uci") uci)
    end
  else if decide (4 ≤ length uci ≤ 5) then
    match index (List.firstn 2 uci) SQUARE_NAMES,
          index (List.firstn 2 (List.skipn 2 uci)) SQUARE_NAMES,
          (if decide (length uci = 5) then Some <$> index (uci !! 4) PIECE_SYMBOLS
           else Some None) with
    | Some from_square, Some to_square, Some promotion =>
        if decide (from_square = to_square) then
          Raised (InvalidMoveError (lit "invalid uci (use 0000 for null moves)") uci)
        else Ok (mkMove from_square to_square promotion None)
    | _, _, _ => Raised (InvalidMoveError (lit "invalid uci") uci)
    end
  else Raised (InvalidMoveError (lit "expected uci string to be of length 4 or 5") uci).

(** ** The external collaborators *)

(** The Board State Provider: [chess.Board]. *)
Class BoardStateProvider : Type := {
  Board : Type;
  (** [chess.Board()], the standard starting position *)
  starting_position : Board;
  (** [board.legal_moves], in the order of iteration *)
  legal_moves : Board → list Move;
  (** [move in board.legal_moves], that is [board.is_legal(move)] *)
  is_legal : Board → Move → bool;
  fen : Board → str;
  is_game_over : Board → bool;
  (** [board.turn]; [chess.WHITE] is [True] *)
  turn : Board → bool;
  (** the board after [board.push(move)] *)
  push : Board → Move → Board;
  fullmove_number : Board → Z;
  (** [str(board)] *)
  board_diagram : Board → str;
  result : Board → str;
  (** The moves the iteration yields pass the membership test. *)
  listed_moves_are_legal :
    ∀ (board : Board) (move : Move), move ∈ legal_moves board → is_legal board move = true;
  (** The membership test also takes castling written as king takes rook
      ([e8h8] for [e8g8]), which the iteration does not yield.  It takes
      nothing else, and where castling is legal it is not the only legal
      move: the rook can move as well. *)
  unlisted_legal_move_is_castling :
    ∀ (board : Board) (move : Move),
      is_legal board move = true → move ∉ legal_moves board →
      ∃ castling other, castling ∈ legal_moves board ∧ other ∈ legal_moves board
                        ∧ castling ≠ other;
}.

(** The Move Proposal Source: [model.generate_content(prompt)] followed by
    [response.text].  Either of the two may raise; the session may answer
    the same prompt differently each time. *)
Class MoveProposalSource : Type := {
  Session : Type;
  generate_content : Session → str → Session * Result str;
}.

(** The generator behind [random.choice]: [randbelow r n] draws an index
    for a sequence of length [n]. *)
Class RandomSource : Type := {
  Rng : Type;
  randbelow : Rng → nat → Rng * nat;
}.

(** [chess.engine.Limit(time=...)] *)
Record Limit : Type := { time : QArith_base.Q }.

(** The Deterministic Opponent: a UCI engine behind
    [chess.engine.SimpleEngine]. *)
Class DeterministicOpponent `{BoardStateProvider} : Type := {
  Engine : Type;
  (** launching the binary at a path *)
  spawn : str → Result Engine;
  configure : Engine → list (str * Z) → Engine * Result ();
  (** [engine.play(board, limit).move] *)
  play : Engine → Board → Limit → Engine * Result Move;
}.

(** What the script takes from the Python runtime and from [chess.pgn]. *)
Class Runtime `{BoardStateProvider} : Type := {
  (** [repr(s)] of a [str] *)
  repr : str → str;
  (** the headers of [chess.pgn.Game.from_board(board)] *)
  from_board_headers : Board → gmap str str;
  (** [str(game)] for a game with these headers over this board *)
  export : gmap str str → Board → str;
}.

(** [datetime.datetime]; the fields the script prints. *)
Record datetime : Type := { year : N; month : N; day : N }.

(** [s.zfill(width)] for a string of digits *)
Definition zfill (width : nat) (s : str) : str :=
  replicate (width - length s) 48%N ++ s.

Definition str_of_N (n : N) : str := lit (NilZero.string_of_uint (N.to_uint n)).

(** [d.strftime("%Y.%m.%d")] *)
Definition strftime_Y_m_d (d : datetime) : str :=
  zfill 4 (str_of_N (year d)) ++ lit "." ++ zfill 2 (str_of_N (month d))
    ++ lit "." ++ zfill 2 (str_of_N (day d)).

Definition isdigit (c : char) : bool := ((48 <=? c) && (c <=? 57))%N.

(** A string of exactly [k] decimal digits. *)
Definition digits (k : nat) (s : str) : bool := (length s =? k) && forallb isdigit s.

(** The shape [YYYY.MM.DD]. *)
Definition is_YYYY_MM_DD (s : str) : bool :=
  match s with
  | [y1; y2; y3; y4; p1; m1; m2; p2; d1; d2] =>
      forallb isdigit [y1; y2; y3; y4; m1; m2; d1; d2] && (p1 =? 46)%N && (p2 =? 46)%N
  | _ => false
  end.

(** ** The world and the monad of effects *)

Section Program.
Context {provider : BoardStateProvider} {source : MoveProposalSource}
  {random : RandomSource} {opponent : DeterministicOpponent} {runtime : Runtime}.

(** An engine process: the engine behind it, and whether [quit] has been
    called on it. *)
Record Process : Type := mkProcess { engine_state : Engine; terminated : bool }.

Record World : Type := mkWorld {
  (** the session of [model] *)
  gemini : Session;
  (** the calls of [model.generate_content] so far, oldest first: the
      prompt passed and what came back *)
  transcript : list (str * Result str);
  (** the state of [random] *)
  random_state : Rng;
  (** the engine processes started so far; a handle is a position *)
  processes : list Process;
  (** the lines printed, oldest first *)
  stdout : list str;
  (** [datetime.datetime.now()] *)
  now : datetime;
  (** the files of the working directory *)
  files : gmap str str;
}.

Definition set_gemini (s : Session) (t : list (str * Result str)) (w : World) : World :=
  mkWorld s t (random_state w) (processes w) (stdout w) (now w) (files w).
Definition set_random_state (r : Rng) (w : World) : World :=
  mkWorld (gemini w) (transcript w) r (processes w) (stdout w) (now w) (files w).
Definition set_processes (ps : list Process) (w : World) : World :=
  mkWorld (gemini w) (transcript w) (random_state w) ps (stdout w) (now w) (files w).
Definition set_stdout (out : list str) (w : World) : World :=
  mkWorld (gemini w) (transcript w) (random_state w) (processes w) out (now w) (files w).
Definition set_files (fs : gmap str str) (w : World) : World :=
  mkWorld (gemini w) (transcript w) (random_state w) (processes w) (stdout w) (now w) fs.

Definition M (A : Type) : Type := World → World * Result A.

#[global] Instance M_ret : MRet M := λ A a w, (w, Ok a).
#[global] Instance M_bind : MBind M := λ A B f m w,
  match m w with
  | (w', Ok a) => f a w'
  | (w', Raised e) => (w', Raised e)
  end.

Definition raise {A} (e : Exn) : M A := λ w, (w, Raised e).

(** [try: body / except Exception as e: handler] *)
Definition try_except {A} (body : M A) (handler : Exn → M A) : M A := λ w,
  match body w with
  | (w', Raised e) => handler e w'
  | (w', Ok a) => (w', Ok a)
  end.

Definition lift {A} (r : Result A) : M A := λ w, (w, r).

(** [str(e)] *)
Definition str_of_exn (e : Exn) : str :=
  match e with
  | InvalidMoveError what uci => what ++ lit ": " ++ repr uci
  | IndexError message => message
  | Fault message => message
  end.

Definition print (line : str) : M () := λ w,
  (set_stdout (stdout w ++ [line]) w, Ok ()).

(** [model.generate_content(prompt).text] *)
Definition generate_text (prompt : str) : M str := λ w,
  let '(session, response) := generate_content (gemini w) prompt in
  (set_gemini session (transcript w ++ [(prompt, response)]) w, response).

(** [random.choice(seq)] *)
Definition random_choice {A} (seq : list A) : M A := λ w,
  match seq with
  | [] => (w, Raised (IndexError (lit "Cannot choose from an empty sequence")))
  | _ =>
      let '(r, i) := randbelow (random_state w) (length seq) in
      match seq !! i with
      | Some x => (set_random_state r w, Ok x)
      | None => (set_random_state r w, Raised (IndexError (lit "list index out of range")))
      end
  end.

(** [chess.engine.SimpleEngine.popen_uci(path)]: the handle of a new process *)
Definition popen_uci (path : str) : M nat := λ w,
  match spawn path with
  | Ok e => (set_processes (processes w ++ [mkProcess e false]) w, Ok (length (processes w)))
  | Raised x => (w, Raised x)
  end.

(** Calling the engine behind a handle. *)
Definition with_engine {A} (handle : nat) (call : Engine → Engine * Result A) : M A := λ w,
  match processes w !! handle with
  | Some (mkProcess e false) =>
      let '(e', r) := call e in
      (set_processes (<[handle := mkProcess e' false]> (processes w)) w, r)
  | _ => (w, Raised (Fault (lit "engine process died unexpectedly")))
  end.

Definition engine_configure (handle : nat) (options : list (str * Z)) : M () :=
  with_engine handle (λ e, configure e options).

Definition engine_play (handle : nat) (board : Board) (limit : Limit) : M Move :=
  with_engine handle (λ e, play e board limit).

(** [engine.quit()] *)
Definition engine_quit (handle : nat) : M () := λ w,
  match processes w !! handle with
  | Some p => (set_processes (<[handle := mkProcess (engine_state p) true]> (processes w)) w, Ok ())
  | None => (w, Ok ())
  end.

(** [open(path, "a")]: the file is created when it is absent. *)
Definition open_append (path : str) : M str := λ w,
  match files w !! path with
  | Some _ => (w, Ok path)
  | None => (set_files (<[path := []]> (files w)) w, Ok path)
  end.

(** [f.write(data)] on a file opened for appending *)
Definition write (f : str) (data : str) : M () := λ w,
  (set_files (alter (λ content, content ++ data) f (files w)) w, Ok ()).

(** ** [get_gemini_move] (lines 81-102 and 118-147) *)

(** Lines 90-102: the prompt before any feedback. *)
Definition initial_prompt (board : Board) (legal_moves : list str) : str :=
  join [NEWLINE]
    [ [];
      lit "    You are playing a game of Chess against Stockfish. You are playing Black.";
      lit "    ";
      lit "    Current Board Position (FEN): " ++ fen board;
      lit "    ";
      lit "    Here is the list of legally possible moves you can make:";
      lit "    " ++ join (lit ", ") legal_moves;
      lit "    ";
      lit "    Your goal is to survive and learn. Analyze the board.";
      lit "    Pick the best move from the legal list above.";
      lit "    ";
      lit "    IMPORTANT: Reply ONLY with the move in UCI format (e.g., e7e5). Do not write any other text.";
      lit "    " ].

(** Line 134: the feedback on a token that parses and is not legal. *)
Definition illegal_move_feedback (move_str : str) : str :=
  [NEWLINE; NEWLINE] ++ lit "ERROR: " ++ move_str
    ++ lit " is not a legal move. Please choose strictly from the provided list.".

(** Lines 139 and 142: the feedback on anything the handler catches. *)
Definition invalid_format_feedback : str :=
  [NEWLINE; NEWLINE]
    ++ lit "ERROR: Invalid format. Please reply ONLY with the move string (e.g., e7e5).".

(** How one pass through the body of the [for] loop ends: by [return move],
    or by reaching the end of the body with a new value of [prompt]. *)
Inductive Round : Type :=
  | Return (move : Move)
  | Next (prompt : str).

(** Lines 119-142: the body of the retry loop. *)
Definition attempt (board : Board) (prompt : str) : M Round :=
  try_except
    (text ← generate_text prompt;
     let move_str := sanitize text in
     move ← lift (from_uci move_str);
     if is_legal board move then mret (Return move)
     else
       print (lit " > Gemini tried illegal move: " ++ move_str ++ lit ". Retrying...");;
       mret (Next (prompt ++ illegal_move_feedback move_str)))
    (λ e,
       print (lit " > Error parsing Gemini response: " ++ str_of_exn e);;
       let prompt := prompt ++ invalid_format_feedback in
       let prompt := prompt ++ invalid_format_feedback in
       mret (Next prompt)).

(** Line 118: [for attempt in range(retries)], with [rounds] passes left.
    The result is the move returned from inside the loop, if any, and the
    value of [prompt] when the loop is left. *)
Fixpoint retry_loop (rounds : nat) (board : Board) (prompt : str) : M (option Move * str) :=
  match rounds with
  | 0 => mret (None, prompt)
  | S rounds' =>
      r ← attempt board prompt;
      match r with
      | Return move => mret (Some move, prompt)
      | Next prompt' => retry_loop rounds' board prompt'
      end
  end.

(** Lines 145-147: the fallback. *)
Definition fallback (board : Board) : M Move :=
  print (lit " > Gemini failed to produce a legal move. Making random move.");;
  random_choice (legal_moves board).

Definition get_gemini_move (board : Board) (retries : Z) : M Move :=
  let legal_moves := map uci (legal_moves board) in
  let prompt := initial_prompt board legal_moves in
  r ← retry_loop (Z.to_nat retries) board prompt;
  match r.1 with
  | Some move => mret move
  | None => fallback board
  end.

(** *** The rounds of one call, read off the transcript *)

(** The move a response proposes: the sanitized text, parsed. *)
Definition proposed (response : Result str) : Result Move :=
  match response with
  | Ok text => from_uci (sanitize text)
  | Raised e => Raised e
  end.

(** The move a round returns, if it returns one. *)
Definition accepted (board : Board) (response : Result str) : option Move :=
  match proposed response with
  | Ok move => if is_legal board move then Some move else None
  | Raised _ => None
  end.

(** What a round that returns no move adds to [prompt]. *)
Definition appended (response : Result str) : str :=
  match response, proposed response with
  | Ok text, Ok _ => illegal_move_feedback (sanitize text)
  | _, _ => invalid_format_feedback ++ invalid_format_feedback
  end.

(** The one feedback line the specification prescribes for a round that
    returns no move (section 4.1, step 3e). *)
Definition feedback_line (response : Result str) : str :=
  match response, proposed response with
  | Ok text, Ok _ => illegal_move_feedback (sanitize text)
  | _, _ => invalid_format_feedback
  end.

(** [negotiation board rounds prompt exchanges r prompt']: with [rounds]
    passes left and [prompt] in hand, the loop makes the calls [exchanges]
    and ends with the move [r], if any, and [prompt']. *)
Inductive negotiation (board : Board)
    : nat → str → list (str * Result str) → option Move → str → Prop :=
  | negotiation_exhausted prompt :
      negotiation board 0 prompt [] None prompt
  | negotiation_return rounds prompt response move :
      accepted board response = Some move →
      negotiation board (S rounds) prompt [(prompt, response)] (Some move) prompt
  | negotiation_retry rounds prompt response exchanges r prompt' :
      accepted board response = None →
      negotiation board rounds (prompt ++ appended response) exchanges r prompt' →
      negotiation board (S rounds) prompt ((prompt, response) :: exchanges) r prompt'.

(** What [random.choice] relies on: the generator draws an index below the
    length it is asked for, each with the same probability. *)
Definition randbelow_in_range : Prop :=
  ∀ (r : Rng) (n : nat), 0 < n → (randbelow r n).2 < n.

(** The element [random.choice(seq)] returns in the world [w]: the one at
    the index drawn. *)
Definition uniform_pick {A} (w : World) (seq : list A) : option A :=
  seq !! (randbelow (random_state w) (length seq)).2.

(** The parts of the world a call of the model leaves alone. *)
Definition same_outside_session (w w' : World) : Prop :=
  random_state w' = random_state w ∧ processes w' = processes w
  ∧ now w' = now w ∧ files w' = files w.

(** ** [play_game] (lines 149-233) *)

Definition STOCKFISH_PATH : str := lit "YOUR_STOCKFISH_PATH_HERE".

(** Lines 174-196: what happens before the loop.  The result is the board,
    the handle in [engine] and the empty [game_moves]. *)
Definition play_game_setup : M (Board * nat * list Move) :=
  let board := starting_position in
  engine ← popen_uci STOCKFISH_PATH;
  let board := starting_position in
  engine ← popen_uci STOCKFISH_PATH;
  engine_configure engine [(lit "Skill Level", 5%Z)];;
  print (lit "--- CYBERCHESS: Stockfish (White) vs Gemini (Black) ---");;
  let game_moves : list Move := [] in
  let game_moves : list Move := [] in
  mret (board, engine, game_moves).

(** Lines 199-221: the body of the [while] loop. *)
Definition game_turn (engine : nat) (board : Board) (game_moves : list Move)
    : M (Board * list Move) :=
  print ([NEWLINE] ++ lit "Move " ++ str_of_Z (fullmove_number board));;
  print (board_diagram board);;
  if turn board then
    print (lit "Stockfish is thinking...");;
    print (lit "Stockfish is thinking...");;
    move ← engine_play engine board {| time := QArith_base.Qmake 1 10 |};
    let board := push board move in
    print (lit "Stockfish played: " ++ uci move);;
    mret (board, game_moves ++ [move])
  else
    print (lit "Gemini is thinking...");;
    move ← get_gemini_move board 3;
    let board := push board move in
    print (lit "Gemini played: " ++ uci move);;
    mret (board, game_moves ++ [move]).

(** Line 198: [while not board.is_game_over()], for at most [fuel] passes;
    [None] when the passes do not suffice. *)
Fixpoint game_loop (fuel : nat) (engine : nat) (board : Board) (game_moves : list Move)
    (w : World) : option (World * Result (Board * list Move)) :=
  if is_game_over board then Some (w, Ok (board, game_moves))
  else
    match fuel with
    | 0 => None
    | S fuel' =>
        match game_turn engine board game_moves w with
        | (w', Ok (board', game_moves')) => game_loop fuel' engine board' game_moves' w'
        | (w', Raised e) => Some (w', Raised e)
        end
    end.

(** The board is the position reached from the starting position by the
    moves of [game_moves], each legal where it was played, by the test
    [move in board.legal_moves]. *)
Inductive recorded : Board → list Move → Prop :=
  | recorded_start : recorded starting_position []
  | recorded_push board game_moves move :
      recorded board game_moves →
      is_legal board move = true →
      recorded (push board move) (game_moves ++ [move]).

(** The states in which the loop evaluates its condition: [visits engine s s']
    when the loop, started in [s], comes to its head in [s']. *)
Inductive visits (engine : nat)
    : World * Board * list Move → World * Board * list Move → Prop :=
  | visits_here s : visits engine s s
  | visits_later w board game_moves w' board' game_moves' s :
      is_game_over board = false →
      game_turn engine board game_moves w = (w', Ok (board', game_moves')) →
      visits engine (w', board', game_moves') s →
      visits engine (w, board, game_moves) s.

(** For each engine process, whether [quit] has been called on it. *)
Definition quit_called (w : World) : list bool := terminated <$> processes w.

(** Lines 225-233: what happens after the loop. *)
Definition play_game_end (engine : nat) (board : Board) : M Board :=
  print ([NEWLINE] ++ lit "--- GAME OVER ---");;
  print (lit "Result: " ++ result board);;
  print ([NEWLINE] ++ lit "--- GAME OVER ---");;
  print (lit "Result: " ++ result board);;
  engine_quit engine;;
  mret board.

(** The whole function, with the final value of [game_moves] next to the
    board it returns. *)
Definition play_game_log (fuel : nat) (w : World)
    : option (World * Result (Board * list Move)) :=
  match play_game_setup w with
  | (w1, Raised e) => Some (w1, Raised e)
  | (w1, Ok (board, engine, game_moves)) =>
      match game_loop fuel engine board game_moves w1 with
      | None => None
      | Some (w2, Raised e) => Some (w2, Raised e)
      | Some (w2, Ok (board', game_moves')) =>
          match play_game_end engine board' w2 with
          | (w3, Ok b) => Some (w3, Ok (b, game_moves'))
          | (w3, Raised e) => Some (w3, Raised e)
          end
      end
  end.

Definition play_game (fuel : nat) (w : World) : option (World * Result Board) :=
  match play_game_log fuel w with
  | None => None
  | Some (w', Ok (board, _)) => Some (w', Ok board)
  | Some (w', Raised e) => Some (w', Raised e)
  end.

(** ** [save_game_data] (lines 235-276) *)

(** A [chess.pgn.Game] as far as the script touches it. *)
Record Game : Type := mkGame { headers : gmap str str; final_board : Board }.

(** [chess.pgn.Game.from_board(board)] *)
Definition from_board (board : Board) : Game :=
  mkGame (from_board_headers board) board.

(** [game.headers[tag] = value] *)
Definition set_header (tag value : str) (game : Game) : Game :=
  mkGame (<[tag := value]> (headers game)) (final_board game).

(** [str(game)] *)
Definition str_of_game (game : Game) : str := export (headers game) (final_board game).

Definition TRAINING_DATA : str := lit "training_data.pgn".

(** Lines 262-271: the game that is written. *)
Definition pgn_game_of (board : Board) (today : datetime) : Game :=
  let pgn_game := from_board board in
  let pgn_game := from_board board in
  let pgn_game := set_header (lit "Event") (lit "Cyberchess Dojo") pgn_game in
  let pgn_game := set_header (lit "White") (lit "Stockfish Level 5") pgn_game in
  let pgn_game := set_header (lit "Black") (lit "Gemini 1.5 Flash") pgn_game in
  let pgn_game := set_header (lit "Date") (strftime_Y_m_d today) pgn_game in
  pgn_game.

Definition save_game_data (board : Board) : M () :=
  today ← (λ w, (w, Ok (now w)));
  let pgn_game := pgn_game_of board today in
  f ← open_append TRAINING_DATA;
  write f (str_of_game pgn_game ++ [NEWLINE; NEWLINE]);;
  print (lit "Game saved to " ++ [QUOTE] ++ TRAINING_DATA ++ [QUOTE]).

(** Lines 293-294: the script. *)
Definition main (fuel : nat) (w : World) : option (World * Result ()) :=
  match play_game fuel w with
  | None => None
  | Some (w', Raised e) => Some (w', Raised e)
  | Some (w', Ok finished_board) => Some (save_game_data finished_board w')
  end.

End Program.

(** ** A small arena to run the script in

    A board provider with two legal moves per side and games of four plies,
    a model session that follows a script, a counter as random generator
    and an engine that plays the first legal move while its budget lasts. *)
Module Scenario.

Definition e2e4 : Move := mkMove 12 28 None None.
Definition d2d4 : Move := mkMove 11 27 None None.
Definition e7e5 : Move := mkMove 52 36 None None.
Definition d7d5 : Move := mkMove 51 35 None None.

(** A board is the list of the moves played. *)
Definition provider : BoardStateProvider := {|
  Board := list Move;
  starting_position := [];
  legal_moves b := if Nat.even (length b) then [e2e4; d2d4] else [e7e5; d7d5];
  is_legal b move :=
    bool_decide (move ∈ if Nat.even (length b) then [e2e4; d2d4] else [e7e5; d7d5]);
  fen b := join (lit " ") (map uci b);
  is_game_over b := 4 <=? length b;
  turn b := Nat.even (length b);
  push b move := b ++ [move];
  fullmove_number b := Z.of_nat (1 + length b / 2);
  board_diagram b := lit "(diagram)";
  result b := lit "*";
  listed_moves_are_legal b move listed := bool_decide_eq_true_2 _ listed;
  unlisted_legal_move_is_castling b move legal unlisted :=
    False_ind _ (unlisted (bool_decide_eq_true_1 _ legal));
|}.

(** A session answers from its script, and with its last word when the
    script is used up. *)
Definition source : MoveProposalSource := {|
  Session := list (Result str) * Result str;
  generate_content s prompt :=
    match s.1 with
    | [] => (s, s.2)
    | r :: script => ((script, s.2), r)
    end;
|}.

Definition random : RandomSource := {|
  Rng := nat;
  randbelow r n := (S r, r mod n);
|}.

(** An engine is the number of moves it still plays before it crashes;
    [budget] is the number a new process starts with. *)
Definition opponent (budget : nat) : @DeterministicOpponent provider := {|
  Engine := nat;
  spawn path := Ok budget;
  configure e options := (e, Ok ());
  play e b limit :=
    match e, @legal_moves provider b with
    | S e', move :: _ => (e', Ok move)
    | _, _ => (e, Raised (Fault (lit "engine process died unexpectedly")))
    end;
|}.

Definition runtime : @Runtime provider :=
  @Build_Runtime provider
    (λ s, [QUOTE] ++ s ++ [QUOTE])
    (λ _, {[ lit "Result" := lit "*" ]})
    (λ hs (b : list Move),
    mjoin (map (λ kv, lit "[" ++ kv.1 ++ lit " " ++ [34%N] ++ kv.2 ++ [34%N] ++ lit "]" ++ [NEWLINE])
                (map_to_list hs))
      ++ [NEWLINE] ++ join (lit " ") (map uci b)).

(** An engine that lasts for the game, and one that is dead on arrival. *)
Definition steady : @DeterministicOpponent provider := opponent 10.
Definition crashing : @DeterministicOpponent provider := opponent 0.

Definition today : datetime := {| year := 2026; month := 11; day := 3 |}.

(** The world before anything has happened. *)
Definition world (opponent : @DeterministicOpponent provider)
    (session : list (Result str) * Result str)
    : @World provider source random opponent :=
  @mkWorld provider source random opponent session [] 0 [] [] today ∅.

(** A source that always answers [z9z9], one that always raises, and one
    that answers [e7e5] after a malformed and an illegal proposal. *)
Definition always_z9z9 : list (Result str) * Result str := ([], Ok (lit "z9z9")).
Definition always_raises : list (Result str) * Result str :=
  ([], Raised (Fault (lit "503 Service Unavailable"))).
Definition third_time_lucky : list (Result str) * Result str :=
  ([Ok (lit "I play e5"); Ok (lit "e2e4")], Ok (lit " `e7e5` ")).

(** Black to move after [1. e4]. *)
Definition after_e4 : @Board provider := [e2e4].

End Scenario.

(** ** Moves in coordinate notation *)

(** The moves a square pair with an optional promotion letter stands for:
    two different squares of the board, a promotion piece or none, no
    drop. *)
Definition well_formed (move : Move) : bool :=
  (from_square move <? 64) && (to_square move <? 64)
  && negb (from_square move =? to_square move)
  && match promotion move with
     | None => true
     | Some piece_type => (1 <=? piece_type) && (piece_type <=? 6)
     end
  && match drop move with
     | None => true
     | Some _ => false
     end.

(** All of them. *)
Definition coordinate_moves : list Move :=
  flat_map (λ from_square,
    flat_map (λ to_square,
      map (λ promotion, mkMove from_square to_square promotion None)
          (None :: map Some (seq 1 6)))
      (seq 0 64))
    (seq 0 64).

(** A text whose white space is made of spaces and newlines only. *)
Definition plain_white_space (text : str) : Prop :=
  Forall (λ c, isspace c = true → c = NEWLINE ∨ c = SPACE) text.

(** A position with a given list of legal moves and Black to move, with an
    engine and a runtime around it; and an engine whose binary is not
    there. *)
Module Position.

Definition provider (moves : list Move) : BoardStateProvider := {|
  Board := unit;
  starting_position := tt;
  legal_moves _ := moves;
  is_legal _ move := bool_decide (move ∈ moves);
  fen _ := lit "7k/5Q2/6K1/8/8/8/8/8 b - - 0 1";
  is_game_over _ := match moves with [] => true | _ => false end;
  turn _ := false;
  push b _ := b;
  fullmove_number _ := 1%Z;
  board_diagram _ := lit "(diagram)";
  result _ := lit "*";
  listed_moves_are_legal _ move listed := bool_decide_eq_true_2 _ listed;
  unlisted_legal_move_is_castling _ move legal unlisted :=
    False_ind _ (unlisted (bool_decide_eq_true_1 _ legal));
|}.

Definition opponent (moves : list Move) : @DeterministicOpponent (provider moves) := {|
  Engine := unit;
  spawn path := Ok tt;
  configure e options := (e, Ok ());
  play e b limit := (e, Raised (Fault (lit "engine process died unexpectedly")));
|}.

Definition runtime (moves : list Move) : @Runtime (provider moves) :=
  @Build_Runtime (provider moves)
    (λ s, [QUOTE] ++ s ++ [QUOTE])
    (λ _, {[ lit "Result" := lit "*" ]})
    (λ hs _, []).

Definition world (moves : list Move) (session : list (Result str) * Result str)
    : @World (provider moves) Scenario.source Scenario.random (opponent moves) :=
  @mkWorld (provider moves) Scenario.source Scenario.random (opponent moves)
    session [] 0 [] [] Scenario.today ∅.

Definition missing_engine : @DeterministicOpponent Scenario.provider := {|
  Engine := nat;
  spawn path := Raised (Fault (lit "[Errno 2] No such file or directory"));
  configure e options := (e, Ok ());
  play e b limit := (e, Raised (Fault (lit "engine process died unexpectedly")));
|}.

End Position.

(** Black to move with the king on e8 and a rook on h8, free to castle:
    the iteration yields the castling as [e8g8], the membership test also
    takes it as [e8h8]. *)
Module Castling.

Definition e8g8 : Move := mkMove 60 62 None None.
Definition e8h8 : Move := mkMove 60 63 None None.
Definition e8f8 : Move := mkMove 60 61 None None.
Definition h8g8 : Move := mkMove 63 62 None None.
Definition h8f8 : Move := mkMove 63 61 None None.

Definition moves : list Move := [h8g8; h8f8; e8f8; e8g8].

Definition provider : BoardStateProvider := {|
  Board := unit;
  starting_position := tt;
  legal_moves _ := moves;
  is_legal _ move := bool_decide (move ∈ moves) || bool_decide (move = e8h8);
  fen _ := lit "4k2r/8/8/8/8/8/8/4K3 b k - 0 1";
  is_game_over _ := false;
  turn _ := false;
  push b _ := b;
  fullmove_number _ := 1%Z;
  board_diagram _ := lit "(diagram)";
  result _ := lit "*";
  listed_moves_are_legal _ move listed :=
    orb_true_intro _ _ (or_introl (bool_decide_eq_true_2 _ listed));
  unlisted_legal_move_is_castling _ move legal unlisted :=
    ex_intro _ e8g8 (ex_intro _ h8g8
      (conj (list_elem_of_lookup_2 moves 3 e8g8 eq_refl)
         (conj (list_elem_of_lookup_2 moves 0 h8g8 eq_refl)
            (λ same : e8g8 = h8g8,
               eq_ind e8g8 (λ m, if from_square m =? 60 then True else False) I
                 h8g8 same))));
|}.

Definition opponent : @DeterministicOpponent provider := {|
  Engine := unit;
  spawn path := Ok tt;
  configure e options := (e, Ok ());
  play e b limit := (e, Raised (Fault (lit "engine process died unexpectedly")));
|}.

Definition runtime : @Runtime provider :=
  @Build_Runtime provider
    (λ s, [QUOTE] ++ s ++ [QUOTE])
    (λ _, {[ lit "Result" := lit "*" ]})
    (λ hs _, []).

Definition world (session : list (Result str) * Result str)
    : @World provider Scenario.source Scenario.random opponent :=
  @mkWorld provider Scenario.source Scenario.random opponent
    session [] 0 [] [] Scenario.today ∅.

End Castling.

(** * Properties *)

Example from_uci_e7e5 : from_uci (lit "e7e5") = Ok Scenario.e7e5.
Proof. vm_compute. reflexivity. Qed.

Example from_uci_z9z9 :
  from_uci (lit "z9z9") = Raised (InvalidMoveError (lit "invalid uci") (lit "z9z9")).
Proof. vm_compute. reflexivity. Qed.

Example from_uci_promotion : from_uci (lit "e7e8q") = Ok (mkMove 52 60 (Some 5) None).
Proof. vm_compute. reflexivity. Qed.

Example uci_from_uci_drop : uci <$> Some (mkMove 28 28 None (Some 1)) = Some (lit "P@e4").
Proof. vm_compute. reflexivity. Qed.


(** ** Sanitizing *)

Lemma filter_filter_and {A} (P Q : A → Prop)
    `{!∀ x, Decision (P x)} `{!∀ x, Decision (Q x)} (l : list A) :
  filter P (filter Q l) = filter (λ x, Q x ∧ P x) l.
Proof.
  induction l as [|a l IH]; [done|].
  rewrite !filter_cons.
  destruct (decide (Q a)) as [q|q].
  - rewrite filter_cons. destruct (decide (P a)) as [p|p].
    + rewrite decide_True by done. by rewrite IH.
    + rewrite decide_False by tauto. done.
  - rewrite decide_False by tauto. done.
Qed.

Lemma lstrip_suffix (s : str) : lstrip s `suffix_of` s.
Proof.
  induction s as [|c s IH]; simpl; [done|].
  destruct (isspace c); [by apply suffix_cons_r | done].
Qed.

Lemma rstrip_prefix (s : str) : rstrip s `prefix_of` s.
Proof.
  unfold rstrip. destruct (lstrip_suffix (rev s)) as [k Hk].
  exists (rev k). rewrite <- rev_app_distr, <- Hk. by rewrite rev_involutive.
Qed.

Lemma strip_sublist (s : str) : strip s `sublist_of` s.
Proof.
  unfold strip. transitivity (lstrip s).
  - destruct (rstrip_prefix (lstrip s)) as [k E].
    rewrite E at 2. by apply sublist_inserts_r.
  - destruct (lstrip_suffix s) as [k E].
    rewrite E at 2. by apply sublist_inserts_l.
Qed.

(** C7.  The sanitized candidate is the stripped response without its
    newlines, spaces and backticks; every other character stays, in its
    place and as it is, so the letter case of the response is kept. *)
Theorem sanitize_is_sanitize_spec (raw : str) :
  sanitize raw = sanitize_spec raw
  ∧ sanitize raw `sublist_of` raw
  ∧ (∀ c, c ∈ sanitize raw ↔ c ∈ strip raw ∧ c ≠ NEWLINE ∧ c ≠ SPACE ∧ c ≠ BACKTICK).
Proof.
  assert (sanitize raw = sanitize_spec raw) as E.
  { unfold sanitize, sanitize_spec, replace_with_empty. cbv zeta.
    rewrite !filter_filter_and. apply list_filter_iff. tauto. }
  split; [done|]. rewrite E. unfold sanitize_spec. split.
  - transitivity (strip raw); [apply sublist_filter | apply strip_sublist].
  - intros c. rewrite list_elem_of_filter. tauto.
Qed.

Example sanitize_keeps_case : sanitize (lit " `E7E5` ") = lit "E7E5".
Proof. vm_compute. reflexivity. Qed.

Example sanitize_keeps_inner_tab : sanitize ([BACKTICK; 9%N] ++ lit "e7e5`") = 9%N :: lit "e7e5".
Proof. vm_compute. reflexivity. Qed.

(** ** The retry loop *)

Section Proofs.
Context {provider : BoardStateProvider} {source : MoveProposalSource}
  {random : RandomSource} {opponent : DeterministicOpponent} {runtime : Runtime}.

Lemma attempt_round (board : Board) (prompt : str) (w : World) :
  let response := (generate_content (gemini w) prompt).2 in
  ∃ w',
    attempt board prompt w =
      (w', Ok (match accepted board response with
               | Some move => Return move
               | None => Next (prompt ++ appended response)
               end))
    ∧ transcript w' = transcript w ++ [(prompt, response)]
    ∧ same_outside_session w w'.
Proof.
  unfold attempt, try_except, mbind, M_bind, generate_text, lift, print, mret, M_ret,
    accepted, appended, proposed, same_outside_session.
  destruct (generate_content (gemini w) prompt) as [session [text|e]]; simpl.
  - destruct (from_uci (sanitize text)) as [move|e]; simpl.
    + destruct (is_legal board move); simpl; eauto 10.
    + rewrite <- app_assoc. eauto 10.
  - rewrite <- app_assoc. eauto 10.
Qed.

Lemma retry_loop_negotiation (rounds : nat) (board : Board) (prompt : str) (w : World) :
  ∃ w' r prompt' exchanges,
    retry_loop rounds board prompt w = (w', Ok (r, prompt'))
    ∧ transcript w' = transcript w ++ exchanges
    ∧ negotiation board rounds prompt exchanges r prompt'
    ∧ same_outside_session w w'.
Proof.
  revert prompt w. induction rounds as [|rounds IH]; intros prompt w; simpl.
  - exists w, None, prompt, []. rewrite app_nil_r.
    repeat split; constructor.
  - destruct (attempt_round board prompt w) as (w1 & E1 & T1 & S1).
    unfold mbind, M_bind. rewrite E1.
    destruct (accepted board _) as [move|] eqn:A.
    + exists w1, (Some move), prompt, [(prompt, (generate_content (gemini w) prompt).2)].
      repeat split; try apply S1; try done. by constructor.
    + destruct (IH (prompt ++ appended (generate_content (gemini w) prompt).2) w1)
        as (w' & r & prompt' & exchanges & E & T & N & S).
      exists w', r, prompt', ((prompt, (generate_content (gemini w) prompt).2) :: exchanges).
      rewrite E, T, T1, <- app_assoc. simpl.
      destruct S as (? & ? & ? & ?), S1 as (? & ? & ? & ?).
      repeat split; try congruence. by constructor.
Qed.

Lemma accepted_legal (board : Board) (response : Result str) (move : Move) :
  accepted board response = Some move →
  proposed response = Ok move ∧ is_legal board move = true.
Proof.
  unfold accepted. destruct (proposed response) as [m|e]; [|done].
  destruct (is_legal board m) eqn:L; [|done].
  intros [= <-]. done.
Qed.

Section Negotiation.
Variable board : Board.

Lemma negotiation_length rounds prompt exchanges r prompt' :
  negotiation board rounds prompt exchanges r prompt' → length exchanges ≤ rounds.
Proof. induction 1; simpl; lia. Qed.

Lemma negotiation_result_legal rounds prompt exchanges r prompt' move :
  negotiation board rounds prompt exchanges r prompt' →
  r = Some move → is_legal board move = true.
Proof.
  induction 1 as [|? ? ? ? A|]; intros E; [done| |auto].
  injection E as <-. by apply accepted_legal in A as [_ A].
Qed.

(** The call that is accepted is the last one, and its prompt is the one
    the loop ends with. *)
Lemma negotiation_first_success rounds prompt exchanges r prompt' k p response move :
  negotiation board rounds prompt exchanges r prompt' →
  exchanges !! k = Some (p, response) →
  accepted board response = Some move →
  r = Some move ∧ length exchanges = S k ∧ prompt' = p.
Proof.
  intros N. revert k. induction N as [|? ? ? ? A|? ? ? ? ? ? A N IH]; intros k L Hk.
  - done.
  - destruct k as [|k]; [|done]. injection L as <- <-.
    repeat split; congruence.
  - destruct k as [|k]; simpl in L.
    + injection L as <- <-. congruence.
    + destruct (IH k L Hk) as (-> & E & ->). simpl. by rewrite E.
Qed.

(** Without an accepted call all the rounds are used. *)
Lemma negotiation_all_rejected rounds prompt exchanges r prompt' :
  negotiation board rounds prompt exchanges r prompt' →
  Forall (λ e, accepted board e.2 = None) exchanges →
  r = None ∧ length exchanges = rounds.
Proof.
  induction 1 as [|? ? ? ? A|? ? ? ? ? ? A N IH]; intros F.
  - done.
  - apply Forall_cons in F as [F _]. simpl in F. congruence.
  - apply Forall_cons in F as [_ F]. destruct (IH F) as [-> <-]. done.
Qed.

Lemma negotiation_exhausted_rejected rounds prompt exchanges prompt' :
  negotiation board rounds prompt exchanges None prompt' →
  Forall (λ e, accepted board e.2 = None) exchanges ∧ length exchanges = rounds.
Proof.
  intros N.
  cut (∀ r, negotiation board rounds prompt exchanges r prompt' → r = None →
         Forall (λ e, accepted board e.2 = None) exchanges ∧ length exchanges = rounds);
    [by eauto|].
  clear N. intros r N.
  induction N as [|? ? ? ? A|? ? ? ? ? ? A N IH]; intros R;
    [split; [constructor|done]|done|].
  destruct (IH R) as [F <-]. split; [|done]. by constructor.
Qed.

(** The prompt only grows: every prompt sent extends the one the loop
    started with, and the one the loop ends with extends them all. *)
Lemma negotiation_prefix rounds prompt exchanges r prompt' :
  negotiation board rounds prompt exchanges r prompt' →
  prompt `prefix_of` prompt'
  ∧ Forall (λ e, prompt `prefix_of` e.1 ∧ e.1 `prefix_of` prompt') exchanges.
Proof.
  induction 1 as [|? ? ? ? A|? ? ? ? ? ? A N [IH1 IH2]].
  - split; [done|constructor].
  - split; [done|]. by repeat constructor.
  - assert (prompt `prefix_of` prompt') as P.
    { transitivity (prompt ++ appended response); [by apply prefix_app_r | done]. }
    split; [done|]. constructor; [done|].
    eapply Forall_impl; [exact IH2|]. intros e [? ?]. split; [|done].
    transitivity (prompt ++ appended response); [by apply prefix_app_r | done].
Qed.

End Negotiation.

(** ** The fallback and the whole call *)

Lemma fallback_run (board : Board) (w : World) :
  legal_moves board ≠ [] → randbelow_in_range →
  ∃ w' move,
    fallback board w = (w', Ok move)
    ∧ uniform_pick w (legal_moves board) = Some move
    ∧ move ∈ legal_moves board
    ∧ gemini w' = gemini w ∧ transcript w' = transcript w
    ∧ processes w' = processes w ∧ now w' = now w ∧ files w' = files w.
Proof.
  intros NE R. unfold fallback, uniform_pick, random_choice, mbind, M_bind, print. simpl.
  destruct (legal_moves board) as [|m l] eqn:L; [done|].
  pose proof (R (random_state w) (length (m :: l)) ltac:(simpl; lia)) as B.
  destruct (randbelow (random_state w) (length (m :: l))) as [r i] eqn:D. simpl in B.
  destruct (lookup_lt_is_Some_2 (m :: l) i B) as [x X].
  rewrite X. exists (set_random_state r (set_stdout
    (stdout w ++ [lit " > Gemini failed to produce a legal move. Making random move."]) w)), x.
  repeat split; try done. by eapply list_elem_of_lookup_2.
Qed.

(** The whole call, with the transcript of its rounds. *)
Lemma get_gemini_move_run (board : Board) (retries : Z) (w : World) :
  legal_moves board ≠ [] → randbelow_in_range →
  let start := initial_prompt board (map uci (legal_moves board)) in
  ∃ w1 r prompt' exchanges w' move,
    retry_loop (Z.to_nat retries) board start w = (w1, Ok (r, prompt'))
    ∧ transcript w1 = transcript w ++ exchanges
    ∧ negotiation board (Z.to_nat retries) start exchanges r prompt'
    ∧ same_outside_session w w1
    ∧ get_gemini_move board retries w = (w', Ok move)
    ∧ is_legal board move = true
    ∧ match r with
      | Some m => move = m ∧ w' = w1
      | None => fallback board w1 = (w', Ok move)
                ∧ uniform_pick w (legal_moves board) = Some move
                ∧ move ∈ legal_moves board
      end
    ∧ transcript w' = transcript w1
    ∧ processes w' = processes w ∧ now w' = now w ∧ files w' = files w.
Proof.
  intros NE R start.
  destruct (retry_loop_negotiation (Z.to_nat retries) board start w)
    as (w1 & r & prompt' & exchanges & E & T & N & S).
  unfold get_gemini_move, mbind, M_bind. fold start. rewrite E. simpl.
  destruct S as (S1 & S2 & S3 & S4).
  destruct r as [m|].
  - exists w1, (Some m), prompt', exchanges, w1, m.
    repeat split; try done. by eapply negotiation_result_legal.
  - destruct (fallback_run board w1 NE R) as (w' & move & F & U & I & ? & ? & ? & ? & ?).
    exists w1, None, prompt', exchanges, w', move.
    repeat split; try done; try congruence.
    + by apply listed_moves_are_legal.
    + unfold uniform_pick in *. by rewrite <- S1.
Qed.

Lemma negotiation_return_last (board : Board) rounds prompt exchanges move prompt' :
  negotiation board rounds prompt exchanges (Some move) prompt' →
  ∃ response, last exchanges = Some (prompt', response)
              ∧ accepted board response = Some move.
Proof.
  intros N.
  cut (∀ r, negotiation board rounds prompt exchanges r prompt' → r = Some move →
         ∃ response, last exchanges = Some (prompt', response)
                     ∧ accepted board response = Some move); [by eauto|].
  clear N. intros r N.
  induction N as [|? ? ? ? A|? ? ? ? ? ? A N IH]; intros R; [done| |].
  - exists response. split; [done|congruence].
  - destruct (IH R) as (resp & L & Acc). exists resp. split; [|done].
    destruct exchanges as [|e exchanges]; [done|]. exact L.
Qed.

(** C1.  On a board with a legal move, whatever the model answers or
    raises, [get_gemini_move] returns a move that is in [board.legal_moves]
    by the code's own test, [move in board.legal_moves]: either the
    proposal of its last call, which has passed this test, or the element
    of [list(board.legal_moves)] that [random.choice] draws. *)
Theorem get_gemini_move_returns_legal_move (board : Board) (retries : Z) (w : World) :
  legal_moves board ≠ [] → randbelow_in_range →
  ∃ w' move,
    get_gemini_move board retries w = (w', Ok move)
    ∧ is_legal board move = true
    ∧ ((∃ prompt response, last (transcript w') = Some (prompt, response)
                           ∧ proposed response = Ok move
                           ∧ accepted board response = Some move)
       ∨ (uniform_pick w (legal_moves board) = Some move
          ∧ move ∈ legal_moves board)).
Proof.
  intros NE R.
  destruct (get_gemini_move_run board retries w NE R)
    as (w1 & r & prompt' & exchanges & w' & move & _ & T & N & _ & G & I & C & T' & _).
  exists w', move. split; [done|]. split; [done|].
  destruct r as [m|].
  - left. destruct C as [-> ->].
    destruct (negotiation_return_last _ _ _ _ _ _ N) as (response & L & A).
    exists prompt', response.
    split; [|split; [by apply accepted_legal in A as [A _]|done]].
    rewrite T. destruct exchanges as [|e exchanges] using rev_ind; [done|].
    rewrite app_assoc, last_snoc. by rewrite last_snoc in L.
  - right. apply C.
Qed.

(** C4.  With at least one retry allowed, [get_gemini_move] returns after
    at most [retries] calls of the model, whatever the model does; when no
    call brings a proposal that parses and passes [move in
    board.legal_moves], all [retries] calls are made and the move returned
    is the element of [list(board.legal_moves)] that [random.choice]
    draws. *)
Theorem get_gemini_move_terminates (board : Board) (retries : Z) (w : World) :
  legal_moves board ≠ [] → randbelow_in_range → (1 ≤ retries)%Z →
  ∃ w' move exchanges,
    get_gemini_move board retries w = (w', Ok move)
    ∧ transcript w' = transcript w ++ exchanges
    ∧ length exchanges ≤ Z.to_nat retries
    ∧ is_legal board move = true
    ∧ (Forall (λ e, accepted board e.2 = None) exchanges →
       length exchanges = Z.to_nat retries
       ∧ uniform_pick w (legal_moves board) = Some move
       ∧ move ∈ legal_moves board).
Proof.
  intros NE R _.
  destruct (get_gemini_move_run board retries w NE R)
    as (w1 & r & prompt' & exchanges & w' & move & _ & T & N & _ & G & I & C & T' & _).
  exists w', move, exchanges. split; [done|]. split; [congruence|].
  split; [by eapply negotiation_length|]. split; [done|].
  intros F. destruct (negotiation_all_rejected _ _ _ _ _ _ N F) as [-> L].
  split; [done|]. apply C.
Qed.

(** C5.  When the call number [k] of one [get_gemini_move] brings a text
    whose sanitized form parses to a legal move, one that
    [board.legal_moves] lists or that passes [move in board.legal_moves],
    that move is returned at once: the call is the last one, [k] is below
    [retries], the prompt is the one that call was made with, and nothing
    follows the loop, neither the fallback message nor a draw from
    [random]. *)
Theorem first_legal_proposal_is_returned (board : Board) (retries : Z) (w : World)
    (k : nat) (prompt_k text : str) (move : Move) :
  let start := initial_prompt board (map uci (legal_moves board)) in
  let after_loop := (retry_loop (Z.to_nat retries) board start w).1 in
  skipn (length (transcript w)) (transcript after_loop) !! k = Some (prompt_k, Ok text) →
  from_uci (sanitize text) = Ok move →
  move ∈ legal_moves board ∨ is_legal board move = true →
  get_gemini_move board retries w = (after_loop, Ok move)
  ∧ retry_loop (Z.to_nat retries) board start w = (after_loop, Ok (Some move, prompt_k))
  ∧ length (transcript after_loop) = length (transcript w) + S k
  ∧ (Z.of_nat k < retries)%Z
  ∧ random_state after_loop = random_state w.
Proof.
  intros start after_loop L P I.
  destruct (retry_loop_negotiation (Z.to_nat retries) board start w)
    as (w1 & r & prompt' & exchanges & E & T & N & S).
  subst after_loop. unfold get_gemini_move, mbind, M_bind. fold start.
  rewrite E in *. simpl in *. rewrite T, drop_app_length in L.
  assert (accepted board (Ok text) = Some move) as A.
  { unfold accepted, proposed. rewrite P.
    destruct I as [I|I]; [apply listed_moves_are_legal in I|]; by rewrite I. }
  destruct (negotiation_first_success _ _ _ _ _ _ _ _ _ _ N L A) as (-> & Len & ->).
  pose proof (negotiation_length _ _ _ _ _ _ N) as B.
  split; [done|]. split; [done|].
  split; [by rewrite T, length_app, Len|].
  split; [lia|]. apply S.
Qed.

(** ** Feedback *)

(** A round whose text parses to a move that fails [move in
    board.legal_moves] adds the one line that names the token. *)
Lemma illegal_proposal_feedback (board : Board) (text : str) (move : Move) :
  from_uci (sanitize text) = Ok move → is_legal board move = false →
  accepted board (Ok text) = None
  ∧ appended (Ok text) = illegal_move_feedback (sanitize text)
  ∧ appended (Ok text) = feedback_line (Ok text).
Proof.
  intros P I. unfold accepted, appended, feedback_line, proposed. rewrite P.
  by rewrite I.
Qed.

(** C6.  A round in which the model raises, or in which the sanitized text
    does not parse, leaves [prompt] with the format message added twice:
    the handler's [prompt += ...] stands at line 139 and again at line 142.
    That is not the single feedback line of the claim. *)
Theorem format_feedback_is_appended_twice (board : Board) (prompt : str) (w : World)
    (response : Result str) (e : Exn) :
  (generate_content (gemini w) prompt).2 = response →
  proposed response = Raised e →
  (attempt board prompt w).2
    = Ok (Next (prompt ++ invalid_format_feedback ++ invalid_format_feedback))
  ∧ feedback_line response = invalid_format_feedback
  ∧ (attempt board prompt w).2 ≠ Ok (Next (prompt ++ feedback_line response)).
Proof.
  intros G P.
  destruct (attempt_round board prompt w) as (w' & E & _).
  rewrite G in E. rewrite E. simpl.
  assert (accepted board response = None) as -> by (unfold accepted; by rewrite P).
  assert (appended response = invalid_format_feedback ++ invalid_format_feedback) as ->.
  { unfold appended. destruct response; [by rewrite P | done]. }
  assert (feedback_line response = invalid_format_feedback) as ->.
  { unfold feedback_line. destruct response; [by rewrite P | done]. }
  split; [done|]. split; [done|].
  intros [= H]. apply app_inv_head in H.
  apply (f_equal length) in H. vm_compute in H. discriminate.
Qed.

(** ** The scenario of the token [z9z9] *)

Lemma z9z9_does_not_parse :
  proposed (Ok (lit "z9z9")) = Raised (InvalidMoveError (lit "invalid uci") (lit "z9z9")).
Proof. vm_compute. reflexivity. Qed.

Lemma negotiation_z9z9 (board : Board) rounds prompt exchanges r prompt' :
  negotiation board rounds prompt exchanges r prompt' →
  Forall (λ e, e.2 = Ok (lit "z9z9")) exchanges →
  r = None ∧ length exchanges = rounds
  ∧ prompt' = prompt ++ mjoin (replicate (2 * rounds) invalid_format_feedback).
Proof.
  induction 1 as [|? ? ? ? A|? ? ? ? ? ? A N IH]; intros F.
  - by rewrite app_nil_r.
  - apply Forall_cons in F as [F _]. change (response = Ok (lit "z9z9")) in F.
    subst response. unfold accepted in A. by rewrite z9z9_does_not_parse in A.
  - apply Forall_cons in F as [F1 F]. change (response = Ok (lit "z9z9")) in F1.
    subst response.
    destruct (IH F) as (-> & <- & ->). split; [done|]. split; [done|].
    unfold appended. rewrite z9z9_does_not_parse.
    replace (2 * S (length exchanges)) with (S (S (2 * length exchanges))) by lia.
    simpl. by rewrite <- !app_assoc.
Qed.

(** C3, as the code has it.  When every call of the model in one
    [get_gemini_move] brings the text [z9z9], all [retries] calls are made,
    the move returned is the element of [board.legal_moves] that
    [random.choice] draws, and [prompt] has grown by format messages only,
    at least one for each call: [z9] names no square, so [z9z9] does not
    parse. *)
Theorem z9z9_gets_format_feedback (board : Board) (retries : Z) (w : World) :
  legal_moves board ≠ [] → randbelow_in_range →
  let start := initial_prompt board (map uci (legal_moves board)) in
  let run := retry_loop (Z.to_nat retries) board start w in
  Forall (λ e, e.2 = Ok (lit "z9z9")) (skipn (length (transcript w)) (transcript run.1)) →
  ∃ w' move messages,
    get_gemini_move board retries w = (w', Ok move)
    ∧ uniform_pick w (legal_moves board) = Some move
    ∧ move ∈ legal_moves board
    ∧ length (transcript w') = length (transcript w) + Z.to_nat retries
    ∧ run.2 = Ok (None, start ++ mjoin (replicate messages invalid_format_feedback))
    ∧ Z.to_nat retries ≤ messages.
Proof.
  intros NE R start run F.
  destruct (get_gemini_move_run board retries w NE R)
    as (w1 & r & prompt' & exchanges & w' & move & E & T & N & _ & G & I & C & T' & _).
  fold start in E, N. subst run. rewrite E in *. simpl in F.
  rewrite T, drop_app_length in F.
  destruct (negotiation_z9z9 _ _ _ _ _ _ N F) as (-> & L & ->).
  exists w', move, (2 * Z.to_nat retries). simpl.
  split; [done|]. split; [apply C|]. split; [apply C|].
  split; [by rewrite T', T, length_app, L|]. split; [done|lia].
Qed.

(** C10.  With [retries = 0] the model is not called: the session and the
    transcript stay as they are, and the move returned is the element of
    [board.legal_moves] that [random.choice] draws. *)
Theorem get_gemini_move_without_retries (board : Board) (w : World) :
  legal_moves board ≠ [] → randbelow_in_range →
  ∃ w' move,
    get_gemini_move board 0 w = (w', Ok move)
    ∧ move ∈ legal_moves board
    ∧ uniform_pick w (legal_moves board) = Some move
    ∧ transcript w' = transcript w
    ∧ gemini w' = gemini w.
Proof.
  intros NE R.
  destruct (fallback_run board w NE R) as (w' & move & F & U & I & Gm & T & _).
  exists w', move. unfold get_gemini_move, mbind, M_bind. simpl. by rewrite F.
Qed.

(** ** The game loop *)

Lemma get_gemini_move_processes (board : Board) (retries : Z) (w : World) :
  processes (get_gemini_move board retries w).1 = processes w.
Proof.
  unfold get_gemini_move, mbind, M_bind.
  destruct (retry_loop_negotiation (Z.to_nat retries) board
              (initial_prompt board (map uci (legal_moves board))) w)
    as (w1 & r & prompt' & exchanges & E & _ & _ & _ & S & _).
  rewrite E. simpl. destruct r as [m|]; [done|].
  unfold fallback, random_choice, mbind, M_bind, print. simpl.
  destruct (legal_moves board) as [|m l]; [done|].
  destruct (randbelow _ _) as [r i]. by destruct ((m :: l) !! i).
Qed.

Lemma with_engine_quit_called {A} (handle : nat) (call : Engine → Engine * Result A)
    (w : World) :
  quit_called (with_engine handle call w).1 = quit_called w.
Proof.
  unfold with_engine, quit_called.
  destruct (processes w !! handle) as [[e [|]]|] eqn:L; [done| |done].
  destruct (call e) as [e' r]. simpl.
  rewrite list_fmap_insert. apply list_insert_id.
  by rewrite list_lookup_fmap, L.
Qed.

Lemma with_engine_transcript {A} (handle : nat) (call : Engine → Engine * Result A)
    (w : World) :
  transcript (with_engine handle call w).1 = transcript w.
Proof.
  unfold with_engine.
  destruct (processes w !! handle) as [[e [|]]|]; [done| |done].
  by destruct (call e).
Qed.

Lemma with_engine_result {A} (handle : nat) (call : Engine → Engine * Result A)
    (w : World) (a : A) :
  (with_engine handle call w).2 = Ok a → ∃ e, (call e).2 = Ok a.
Proof.
  unfold with_engine.
  destruct (processes w !! handle) as [[e [|]]|]; [done| |done].
  destruct (call e) as [e' r] eqn:C. simpl. intros ->. exists e. by rewrite C.
Qed.

Lemma game_turn_quit_called (engine : nat) (board : Board) (game_moves : list Move)
    (w : World) :
  quit_called (game_turn engine board game_moves w).1 = quit_called w.
Proof.
  unfold game_turn, mbind, M_bind, print. simpl.
  destruct (turn board).
  - simpl. unfold engine_play.
    match goal with |- context [with_engine ?h ?c ?w0] =>
      pose proof (with_engine_quit_called h c w0) as Q;
      destruct (with_engine h c w0) as [w1 [move|e]] end; apply Q.
  - simpl.
    match goal with |- context [get_gemini_move ?b ?n ?w0] =>
      pose proof (get_gemini_move_processes b n w0) as Q;
      destruct (get_gemini_move b n w0) as [w1 [move|e]] end;
      unfold quit_called; simpl in *; by rewrite Q.
Qed.

Section Game.
Hypothesis engine_plays_legal :
  ∀ (e : Engine) (b : Board) (limit : Limit) (e' : Engine) (move : Move),
    play e b limit = (e', Ok move) → is_legal b move = true.
Hypothesis live_board_has_moves :
  ∀ b : Board, is_game_over b = false → legal_moves b ≠ [].
Hypothesis random_ok : randbelow_in_range.

(** One pass of the loop on a live board.  On White's turn the engine
    process is asked once, and nothing is asked of the model or of
    [random]; on Black's turn [get_gemini_move] is called once, with three
    retries, and the engine processes are left alone.  The move obtained
    is legal, pushed and logged; or the engine raises on White's turn. *)
Lemma game_turn_step (engine : nat) (board : Board) (game_moves : list Move) (w : World) :
  is_game_over board = false →
  (∃ w' move,
     game_turn engine board game_moves w
       = (w', Ok (push board move, game_moves ++ [move]))
     ∧ is_legal board move = true
     ∧ (if turn board
        then ∃ e e',
               processes w !! engine = Some (mkProcess e false)
               ∧ play e board {| time := QArith_base.Qmake 1 10 |} = (e', Ok move)
               ∧ processes w' = <[engine := mkProcess e' false]> (processes w)
               ∧ transcript w' = transcript w ∧ gemini w' = gemini w
               ∧ random_state w' = random_state w
        else ∃ w1,
               get_gemini_move board 3
                 (set_stdout
                    (((stdout w
                         ++ [[NEWLINE] ++ lit "Move " ++ str_of_Z (fullmove_number board)])
                        ++ [board_diagram board])
                       ++ [lit "Gemini is thinking..."]) w) = (w1, Ok move)
               ∧ w' = set_stdout (stdout w1 ++ [lit "Gemini played: " ++ uci move]) w1
               ∧ processes w' = processes w
               ∧ length (transcript w') ≤ length (transcript w) + 3))
  ∨ (∃ w' e,
       game_turn engine board game_moves w = (w', Raised e)
       ∧ turn board = true ∧ transcript w' = transcript w
       ∧ quit_called w' = quit_called w).
Proof.
  intros Live. unfold game_turn, mbind, M_bind, print, mret, M_ret.
  cbn [fst snd]. destruct (turn board) eqn:Turn; cbn [fst snd].
  - unfold engine_play, with_engine. cbn [processes set_stdout].
    destruct (processes w !! engine) as [[e [|]]|] eqn:P.
    + right. eexists _, _. by repeat split.
    + destruct (play e board _) as [e' [move|x]] eqn:Pl;
        cbn [fst snd set_processes set_stdout processes transcript gemini random_state].
      * left. eexists _, move. split; [reflexivity|].
        split; [by eapply engine_plays_legal|].
        exists e, e'. by repeat split.
      * right. eexists _, _. split; [reflexivity|]. split; [done|]. split; [done|].
        unfold quit_called. cbn [processes set_processes set_stdout].
        rewrite list_fmap_insert.
        apply list_insert_id. by rewrite list_lookup_fmap, P.
    + right. eexists _, _. by repeat split.
  - match goal with |- context [get_gemini_move ?b ?n ?w0] =>
      destruct (get_gemini_move_run b n w0 (live_board_has_moves _ Live) random_ok)
        as (w1 & r & p' & exchanges & w' & move & _ & T1 & N & _ & G & I & C & T' & Pr & _);
      pose proof (negotiation_length _ _ _ _ _ _ N) as Len;
      rewrite G end.
    left. cbn [fst snd]. eexists _, move. split; [reflexivity|]. split; [done|].
    exists w'. split; [done|]. split; [done|].
    cbn [set_stdout processes transcript] in *. split; [done|].
    rewrite T', T1, length_app. simpl in Len. lia.
Qed.

Lemma game_turn_recorded (engine : nat) (board board' : Board)
    (game_moves game_moves' : list Move) (w w' : World) :
  is_game_over board = false → recorded board game_moves →
  game_turn engine board game_moves w = (w', Ok (board', game_moves')) →
  recorded board' game_moves' ∧ ∃ move, game_moves' = game_moves ++ [move].
Proof.
  intros Live Rec E.
  destruct (game_turn_step engine board game_moves w Live)
    as [(w1 & move & E1 & I & _)|(w1 & e & E1 & _)]; rewrite E1 in E; [|done].
  injection E as <- <- <-. split; [by constructor | by exists move].
Qed.

Lemma visits_recorded (engine : nat) s s' :
  visits engine s s' → recorded s.1.2 s.2 → recorded s'.1.2 s'.2.
Proof.
  induction 1 as [|w board game_moves w' board' game_moves' s Live E V IH]; [done|].
  simpl. intros Rec. apply IH. simpl.
  by destruct (game_turn_recorded _ _ _ _ _ _ _ Live Rec E).
Qed.

Lemma game_loop_visits (fuel : nat) (engine : nat) (board board' : Board)
    (game_moves game_moves' : list Move) (w w' : World) :
  game_loop fuel engine board game_moves w = Some (w', Ok (board', game_moves')) →
  visits engine (w, board, game_moves) (w', board', game_moves')
  ∧ is_game_over board' = true.
Proof.
  revert board game_moves w. induction fuel as [|fuel IH]; intros board game_moves w; simpl.
  - destruct (is_game_over board) eqn:Over; [|done].
    intros [= <- <- <-]. split; [constructor|done].
  - destruct (is_game_over board) eqn:Over.
    + intros [= <- <- <-]. split; [constructor|done].
    + destruct (game_turn engine board game_moves w) as [w1 [[b1 m1]|e]] eqn:E; [|done].
      intros L. destruct (IH _ _ _ L) as [V O]. split; [|done].
      by eapply visits_later.
Qed.

Lemma play_game_setup_start (w w1 : World) (board : Board) (engine : nat)
    (game_moves : list Move) :
  play_game_setup w = (w1, Ok (board, engine, game_moves)) →
  board = starting_position ∧ game_moves = [].
Proof.
  unfold play_game_setup, mbind, M_bind, print, mret, M_ret.
  destruct (popen_uci STOCKFISH_PATH w) as [wa [ha|?]]; [|done].
  destruct (popen_uci STOCKFISH_PATH wa) as [wb [hb|?]]; [|done].
  destruct (engine_configure hb _ wb) as [wc [[]|?]]; [|done].
  by intros [= <- <- <- <-].
Qed.

(** C8.  On every pass of the loop over a live board exactly one move is
    obtained: on White's turn by one request to the engine process, on
    Black's turn by one call of [get_gemini_move]; it is legal, it is
    pushed on the board and appended to [game_moves].  A pass ends
    otherwise only by a fault of the engine on White's turn.  So wherever
    the loop evaluates its condition the board is the position reached
    from the starting position by the moves of [game_moves], each legal
    where it was played, and when the loop is left and [play_game] returns,
    the game is over. *)
Theorem play_game_records_a_legal_game :
  (∀ engine board game_moves w,
     is_game_over board = false → recorded board game_moves →
     (∃ w' move,
        game_turn engine board game_moves w
          = (w', Ok (push board move, game_moves ++ [move]))
        ∧ is_legal board move = true
        ∧ recorded (push board move) (game_moves ++ [move])
        ∧ (if turn board
           then ∃ e e',
                  processes w !! engine = Some (mkProcess e false)
                  ∧ play e board {| time := QArith_base.Qmake 1 10 |} = (e', Ok move)
                  ∧ processes w' = <[engine := mkProcess e' false]> (processes w)
                  ∧ transcript w' = transcript w ∧ gemini w' = gemini w
                  ∧ random_state w' = random_state w
           else ∃ w1,
                  get_gemini_move board 3
                    (set_stdout
                       (((stdout w
                            ++ [[NEWLINE] ++ lit "Move "
                                  ++ str_of_Z (fullmove_number board)])
                           ++ [board_diagram board])
                          ++ [lit "Gemini is thinking..."]) w) = (w1, Ok move)
                  ∧ w' = set_stdout (stdout w1 ++ [lit "Gemini played: " ++ uci move]) w1
                  ∧ processes w' = processes w
                  ∧ length (transcript w') ≤ length (transcript w) + 3))
     ∨ (∃ w' e,
          game_turn engine board game_moves w = (w', Raised e)
          ∧ turn board = true ∧ transcript w' = transcript w
          ∧ quit_called w' = quit_called w))
  ∧ (∀ engine w board game_moves w' board' game_moves',
       recorded board game_moves →
       visits engine (w, board, game_moves) (w', board', game_moves') →
       recorded board' game_moves')
  ∧ (∀ fuel engine w board game_moves w' board' game_moves',
       recorded board game_moves →
       game_loop fuel engine board game_moves w = Some (w', Ok (board', game_moves')) →
       recorded board' game_moves' ∧ is_game_over board' = true)
  ∧ (∀ fuel w w' board game_moves,
       play_game_log fuel w = Some (w', Ok (board, game_moves)) →
       play_game fuel w = Some (w', Ok board)
       ∧ recorded board game_moves ∧ is_game_over board = true).
Proof.
  split; [|split; [|split]].
  - intros engine board game_moves w Live Rec.
    destruct (game_turn_step engine board game_moves w Live)
      as [(w' & move & E & I & S)|F]; [left|by right].
    exists w', move. repeat split; try done. by constructor.
  - intros engine w board game_moves w' board' game_moves' Rec V.
    by apply (visits_recorded _ _ _ V).
  - intros fuel engine w board game_moves w' board' game_moves' Rec L.
    destruct (game_loop_visits _ _ _ _ _ _ _ _ L) as [V O].
    split; [by apply (visits_recorded _ _ _ V)|done].
  - intros fuel w w' board game_moves. unfold play_game. intros L. rewrite L.
    split; [done|]. unfold play_game_log in L.
    destruct (play_game_setup w) as [w1 [[[b0 engine] m0]|e]] eqn:S; [|done].
    destruct (play_game_setup_start _ _ _ _ _ S) as [-> ->].
    destruct (game_loop fuel engine starting_position [] w1)
      as [[w2 [[b2 m2]|e]]|] eqn:G; [|done|done].
    destruct (game_loop_visits _ _ _ _ _ _ _ _ G) as [V O].
    pose proof (visits_recorded _ _ _ V recorded_start) as Rec. simpl in Rec.
    unfold play_game_end, mbind, M_bind, print, engine_quit, mret, M_ret in L.
    simpl in L. destruct (processes w2 !! engine); by injection L as <- <- <-.
Qed.

End Game.

(** ** The engine process *)

Lemma game_loop_quit_called (fuel : nat) (engine : nat) (board : Board)
    (game_moves : list Move) (w w' : World) (r : Result (Board * list Move)) :
  game_loop fuel engine board game_moves w = Some (w', r) →
  quit_called w' = quit_called w.
Proof.
  revert board game_moves w. induction fuel as [|fuel IH]; intros board game_moves w; simpl.
  - destruct (is_game_over board); [|done]. by intros [= <- <-].
  - destruct (is_game_over board); [by intros [= <- <-]|].
    pose proof (game_turn_quit_called engine board game_moves w) as Q.
    destruct (game_turn engine board game_moves w) as [w1 [[b1 m1]|e]]; simpl in Q.
    + intros L. rewrite <- Q. by eapply IH.
    + by intros [= <- <-].
Qed.

Lemma popen_uci_quit_called (path : str) (w : World) :
  match popen_uci path w with
  | (w', Ok handle) => handle = length (quit_called w)
                       ∧ quit_called w' = quit_called w ++ [false]
  | (w', Raised _) => quit_called w' = quit_called w
  end.
Proof.
  unfold popen_uci, quit_called. destruct (spawn path); simpl; [|done].
  by rewrite fmap_app, length_fmap.
Qed.

Lemma play_game_setup_quit_called (w : World) :
  match play_game_setup w with
  | (w', Ok (_, engine, _)) => engine = S (length (quit_called w))
                               ∧ quit_called w' = quit_called w ++ [false; false]
  | (w', Raised _) => ∃ k, quit_called w' = quit_called w ++ replicate k false
  end.
Proof.
  unfold play_game_setup, mbind, M_bind, print, mret, M_ret.
  pose proof (popen_uci_quit_called STOCKFISH_PATH w) as Pa.
  destruct (popen_uci STOCKFISH_PATH w) as [wa [ha|?]];
    [|exists 0; by rewrite app_nil_r].
  destruct Pa as [-> Qa].
  pose proof (popen_uci_quit_called STOCKFISH_PATH wa) as Pb.
  destruct (popen_uci STOCKFISH_PATH wa) as [wb [hb|?]];
    [|exists 1; by rewrite Pb, Qa].
  destruct Pb as [-> Qb]. unfold engine_configure.
  match goal with |- context [with_engine ?h ?c ?w0] =>
    pose proof (with_engine_quit_called h c w0) as Qc;
    destruct (with_engine h c w0) as [wc [[]|?]] end;
    cbn [fst] in Qc; cbv beta iota.
  - change (quit_called (set_stdout ?o wc)) with (quit_called wc).
    rewrite Qc, Qb, Qa, <- app_assoc. split; [|done].
    by rewrite length_app, Nat.add_1_r.
  - exists 2. by rewrite Qc, Qb, Qa, <- app_assoc.
Qed.

(** C2, as the code has it.  [play_game] starts the engine before the loop
    and calls [quit] on it after the loop, when the game is over.  When a
    step raises, the fault leaves [play_game] at once: [quit] has not been
    called on any process the call has started. *)
Theorem play_game_quits_engine_only_on_return (fuel : nat) (w : World) :
  match play_game fuel w with
  | Some (w', Ok board) =>
      ∃ engine, length (processes w) ≤ engine
                ∧ quit_called w' !! engine = Some true
                ∧ is_game_over board = true
  | Some (w', Raised e) =>
      ∀ handle, length (processes w) ≤ handle → quit_called w' !! handle ≠ Some true
  | None => True
  end.
Proof.
  assert (∀ w' k handle, quit_called w' = quit_called w ++ replicate k false →
            length (processes w) ≤ handle → quit_called w' !! handle ≠ Some true) as NoQuit.
  { intros w' k handle -> Le. rewrite lookup_app_r by (unfold quit_called; rewrite length_fmap; lia).
    intros L. apply lookup_replicate in L as [? _]. done. }
  unfold play_game, play_game_log.
  pose proof (play_game_setup_quit_called w) as S.
  destruct (play_game_setup w) as [w1 [[[b0 engine] m0]|e]].
  - destruct S as [-> Q1].
    destruct (game_loop fuel _ b0 m0 w1) as [[w2 [[b2 m2]|e]]|] eqn:G; [| |done].
    + pose proof (game_loop_quit_called _ _ _ _ _ _ _ G) as Q2.
      destruct (game_loop_visits _ _ _ _ _ _ _ _ G) as [_ Over].
      unfold play_game_end, mbind, M_bind, print, engine_quit, mret, M_ret. simpl.
      assert ((terminated <$> processes w2) !! S (length (quit_called w)) = Some false) as L.
      { change (terminated <$> processes w2) with (quit_called w2).
        rewrite Q2, Q1. rewrite lookup_app_r by lia.
        by replace (S (length (quit_called w)) - length (quit_called w)) with 1 by lia. }
      rewrite list_lookup_fmap in L.
      cbn [processes set_stdout].
      destruct (processes w2 !! S (length (quit_called w))) as [p|] eqn:P; [|done].
      exists (S (length (quit_called w))).
      split; [unfold quit_called; rewrite length_fmap; lia|]. split; [|done].
      unfold quit_called, set_processes. cbn [processes].
      rewrite list_lookup_fmap, list_lookup_insert_eq; [done|].
      by eapply lookup_lt_Some.
    + pose proof (game_loop_quit_called _ _ _ _ _ _ _ G) as Q2.
      intros handle. apply (NoQuit w2 2). by rewrite Q2, Q1.
  - destruct S as [k Q]. intros handle. by apply (NoQuit w1 k).
Qed.

(** ** The archive *)

Lemma checked_on_range (f : N → bool) (lo len : N) :
  forallb (λ n, f (N.of_nat n)) (seq (N.to_nat lo) (N.to_nat len)) = true →
  ∀ y : N, (lo ≤ y < lo + len)%N → f y = true.
Proof.
  intros F y B. rewrite forallb_forall in F.
  rewrite <- (N2Nat.id y). apply F, in_seq. lia.
Qed.

Lemma year_has_four_digits (y : N) :
  (1000 ≤ y ≤ 9999)%N → digits 4 (zfill 4 (str_of_N y)) = true.
Proof.
  intros B. apply (checked_on_range (λ y, digits 4 (zfill 4 (str_of_N y))) 1000 9000).
  - vm_compute. reflexivity.
  - lia.
Qed.

Lemma month_or_day_has_two_digits (n : N) :
  (1 ≤ n ≤ 31)%N → digits 2 (zfill 2 (str_of_N n)) = true.
Proof.
  intros B. apply (checked_on_range (λ y, digits 2 (zfill 2 (str_of_N y))) 1 31).
  - vm_compute. reflexivity.
  - lia.
Qed.

Lemma strftime_shape (d : datetime) :
  (1000 ≤ year d ≤ 9999)%N → (1 ≤ month d ≤ 12)%N → (1 ≤ day d ≤ 31)%N →
  is_YYYY_MM_DD (strftime_Y_m_d d) = true.
Proof.
  intros Y M D. unfold strftime_Y_m_d.
  pose proof (year_has_four_digits _ Y) as Hy.
  pose proof (month_or_day_has_two_digits (month d) ltac:(lia)) as Hm.
  pose proof (month_or_day_has_two_digits _ D) as Hd.
  destruct (zfill 4 (str_of_N (year d))) as [|y1 [|y2 [|y3 [|y4 [|]]]]]; try done.
  destruct (zfill 2 (str_of_N (month d))) as [|m1 [|m2 [|]]]; try done.
  destruct (zfill 2 (str_of_N (day d))) as [|d1 [|d2 [|]]]; try done.
  unfold digits in *. cbn [length Nat.eqb andb forallb] in *.
  cbn [app lit is_YYYY_MM_DD forallb].
  repeat match goal with H : _ && _ = true |- _ => apply andb_prop in H as [? ?] end.
  repeat match goal with H : isdigit _ = true |- _ => rewrite H; clear H end.
  reflexivity.
Qed.

(** C9.  [save_game_data] builds the whole record first and then appends
    it, followed by an empty line, to [training_data.pgn], which it creates
    when absent; what the file held stays in front, and no other file
    changes.  The game written carries the headers Event, White, Black and
    Date, the date in the form [YYYY.MM.DD]. *)
Theorem save_game_data_appends_one_record (board : Board) (w : World) :
  (1000 ≤ year (now w) ≤ 9999)%N → (1 ≤ month (now w) ≤ 12)%N →
  (1 ≤ day (now w) ≤ 31)%N →
  let pgn_game := pgn_game_of board (now w) in
  let archived := default [] (files w !! TRAINING_DATA) in
  ∃ w',
    save_game_data board w = (w', Ok ())
    ∧ files w' = <[TRAINING_DATA := archived ++ str_of_game pgn_game ++ [NEWLINE; NEWLINE]]> (files w)
    ∧ (∀ path, path ≠ TRAINING_DATA → files w' !! path = files w !! path)
    ∧ final_board pgn_game = board
    ∧ headers pgn_game !! lit "Event" = Some (lit "Cyberchess Dojo")
    ∧ headers pgn_game !! lit "White" = Some (lit "Stockfish Level 5")
    ∧ headers pgn_game !! lit "Black" = Some (lit "Gemini 1.5 Flash")
    ∧ headers pgn_game !! lit "Date" = Some (strftime_Y_m_d (now w))
    ∧ is_YYYY_MM_DD (strftime_Y_m_d (now w)) = true.
Proof.
  intros Y M D pgn_game archived.
  assert (∃ w', save_game_data board w = (w', Ok ())
    ∧ files w' = <[TRAINING_DATA := archived ++ str_of_game pgn_game ++ [NEWLINE; NEWLINE]]> (files w))
    as (w' & E & F).
  { unfold save_game_data, mbind, M_bind, open_append, write, print, set_files, set_stdout.
    cbn [fst snd now]. fold pgn_game. subst archived.
    destruct (files w !! TRAINING_DATA) as [old|] eqn:L;
      cbn [files default id app]; (eexists; split; [reflexivity|]);
      cbn [files]; apply map_eq; intros path;
      rewrite ?lookup_alter, ?lookup_insert; repeat case_decide; subst;
      rewrite ?L, ?lookup_insert_eq; done. }
  exists w'. split; [done|]. split; [done|].
  split; [intros path Ne; by rewrite F, lookup_insert_ne|].
  split; [done|].
  subst pgn_game. unfold pgn_game_of, set_header. cbn [headers].
  repeat split.
  - rewrite !lookup_insert_ne by (vm_compute; discriminate). apply lookup_insert_eq.
  - rewrite !lookup_insert_ne by (vm_compute; discriminate). apply lookup_insert_eq.
  - rewrite !lookup_insert_ne by (vm_compute; discriminate). apply lookup_insert_eq.
  - apply lookup_insert_eq.
  - by apply strftime_shape.
Qed.

End Proofs.

(** * The properties in the arena *)

Section Arena.
#[local] Existing Instance Scenario.provider.
#[local] Existing Instance Scenario.source.
#[local] Existing Instance Scenario.random.
#[local] Existing Instance Scenario.steady.
#[local] Existing Instance Scenario.runtime.

Lemma scenario_randbelow_in_range : randbelow_in_range.
Proof. intros r n Pos. simpl. apply Nat.mod_upper_bound. lia. Qed.

Lemma scenario_board_has_moves (b : Board) : legal_moves b ≠ [].
Proof. simpl. by destruct (Nat.even (length b)). Qed.

Lemma scenario_engine_plays_legal (budget : nat) (e : nat) (b : Board) (limit : Limit)
    (e' : nat) (move : Move) :
  play (DeterministicOpponent := Scenario.opponent budget) e b limit = (e', Ok move) →
  is_legal b move = true.
Proof.
  intros P. apply listed_moves_are_legal. revert P.
  simpl. destruct e as [|e]; [done|].
  destruct (Nat.even (length b)); intros [= _ <-]; apply list_elem_of_here.
Qed.

Example negotiate_third_time_lucky :
  (get_gemini_move Scenario.after_e4 3 (Scenario.world _ Scenario.third_time_lucky)).2
    = Ok Scenario.e7e5.
Proof. vm_compute. reflexivity. Qed.

Lemma get_gemini_move_returns_legal_move_witness :
  ∃ w' move,
    get_gemini_move Scenario.after_e4 3 (Scenario.world _ Scenario.always_raises)
      = (w', Ok move)
    ∧ is_legal Scenario.after_e4 move = true
    ∧ ((∃ prompt response, last (transcript w') = Some (prompt, response)
                           ∧ proposed response = Ok move
                           ∧ accepted Scenario.after_e4 response = Some move)
       ∨ (uniform_pick (Scenario.world _ Scenario.always_raises)
            (legal_moves Scenario.after_e4) = Some move
          ∧ move ∈ legal_moves Scenario.after_e4)).
Proof.
  apply get_gemini_move_returns_legal_move.
  - vm_compute. discriminate.
  - exact scenario_randbelow_in_range.
Defined.

(** The castling of Black written as king takes rook: [e8h8] is not among
    the moves [board.legal_moves] yields, the test [move in
    board.legal_moves] takes it, and it is returned after one call. *)
Example castling_as_king_takes_rook_is_returned :
  let w := Castling.world ([], Ok (lit "e8h8")) in
  let run := get_gemini_move (provider := Castling.provider) (runtime := Castling.runtime)
               tt 3 w in
  run.2 = Ok Castling.e8h8
  ∧ length (transcript run.1) = 1
  ∧ random_state run.1 = random_state w
  ∧ (Castling.e8h8 ∉ (legal_moves (BoardStateProvider := Castling.provider) tt))
  ∧ is_legal (BoardStateProvider := Castling.provider) tt Castling.e8h8 = true.
Proof.
  repeat split; try (vm_compute; reflexivity).
  intros I. apply list_elem_of_In in I. vm_compute in I. intuition discriminate.
Qed.

Lemma get_gemini_move_terminates_witness :
  ∃ w' move exchanges,
    get_gemini_move Scenario.after_e4 3 (Scenario.world _ Scenario.always_raises)
      = (w', Ok move)
    ∧ transcript w' = transcript (Scenario.world _ Scenario.always_raises) ++ exchanges
    ∧ length exchanges ≤ Z.to_nat 3
    ∧ is_legal Scenario.after_e4 move = true
    ∧ (Forall (λ e, accepted Scenario.after_e4 e.2 = None) exchanges →
       length exchanges = Z.to_nat 3
       ∧ uniform_pick (Scenario.world _ Scenario.always_raises)
           (legal_moves Scenario.after_e4) = Some move
       ∧ move ∈ legal_moves Scenario.after_e4).
Proof.
  apply get_gemini_move_terminates.
  - vm_compute. discriminate.
  - exact scenario_randbelow_in_range.
  - lia.
Defined.

Lemma first_legal_proposal_is_returned_witness :
  let w := Scenario.world _ Scenario.third_time_lucky in
  let start := initial_prompt Scenario.after_e4 (map uci (legal_moves Scenario.after_e4)) in
  let prompt_2 := start ++ invalid_format_feedback ++ invalid_format_feedback
                    ++ illegal_move_feedback (lit "e2e4") in
  let after_loop := (retry_loop (Z.to_nat 3) Scenario.after_e4 start w).1 in
  get_gemini_move Scenario.after_e4 3 w = (after_loop, Ok Scenario.e7e5)
  ∧ retry_loop (Z.to_nat 3) Scenario.after_e4 start w
      = (after_loop, Ok (Some Scenario.e7e5, prompt_2))
  ∧ length (transcript after_loop) = length (transcript w) + 3
  ∧ (Z.of_nat 2 < 3)%Z
  ∧ random_state after_loop = random_state w.
Proof.
  intros w start prompt_2 after_loop.
  apply (first_legal_proposal_is_returned Scenario.after_e4 3 w 2 prompt_2
           (lit " `e7e5` ") Scenario.e7e5).
  - vm_compute. reflexivity.
  - vm_compute. reflexivity.
  - left. vm_compute. apply list_elem_of_here.
Defined.

Lemma format_feedback_is_appended_twice_witness :
  let w := Scenario.world _ Scenario.always_raises in
  let prompt := initial_prompt Scenario.after_e4 (map uci (legal_moves Scenario.after_e4)) in
  let response : Result str := Raised (Fault (lit "503 Service Unavailable")) in
  (attempt Scenario.after_e4 prompt w).2
    = Ok (Next (prompt ++ invalid_format_feedback ++ invalid_format_feedback))
  ∧ feedback_line response = invalid_format_feedback
  ∧ (attempt Scenario.after_e4 prompt w).2 ≠ Ok (Next (prompt ++ feedback_line response)).
Proof.
  intros w prompt response.
  apply (format_feedback_is_appended_twice Scenario.after_e4 prompt w response
           (Fault (lit "503 Service Unavailable"))).
  - reflexivity.
  - reflexivity.
Defined.

(** The same happens to a text that does not parse. *)
Example malformed_text_gets_two_format_messages :
  let w := Scenario.world _ Scenario.third_time_lucky in
  let prompt := initial_prompt Scenario.after_e4 (map uci (legal_moves Scenario.after_e4)) in
  (attempt Scenario.after_e4 prompt w).2
    = Ok (Next (prompt ++ invalid_format_feedback ++ invalid_format_feedback)).
Proof. vm_compute. reflexivity. Qed.

(** C3, as the claim has it, fails: three answers [z9z9] leave no message
    of the form "is not a legal move" in the prompt. *)
Lemma z9z9_is_not_answered_with_illegal_move_feedback :
  let w := Scenario.world _ Scenario.always_z9z9 in
  let start := initial_prompt Scenario.after_e4 (map uci (legal_moves Scenario.after_e4)) in
  let run := retry_loop 3 Scenario.after_e4 start w in
  Forall (λ e, e.2 = Ok (lit "z9z9")) (transcript run.1)
  ∧ length (transcript run.1) = 3
  ∧ run.2 ≠ Ok (None, start ++ mjoin (replicate 3 (illegal_move_feedback (lit "z9z9"))))
  ∧ ∃ prompt', run.2 = Ok (None, prompt')
               ∧ contains (lit "is not a legal move") prompt' = false
               ∧ contains (lit "ERROR: Invalid format") prompt' = true.
Proof.
  intros w start run. split; [|split; [|split]].
  - vm_compute. repeat constructor.
  - vm_compute. reflexivity.
  - vm_compute. discriminate.
  - eexists. split; [reflexivity|]. split; vm_compute; reflexivity.
Qed.

Lemma z9z9_gets_format_feedback_witness :
  let w := Scenario.world _ Scenario.always_z9z9 in
  let start := initial_prompt Scenario.after_e4 (map uci (legal_moves Scenario.after_e4)) in
  let run := retry_loop (Z.to_nat 3) Scenario.after_e4 start w in
  ∃ w' move messages,
    get_gemini_move Scenario.after_e4 3 w = (w', Ok move)
    ∧ uniform_pick w (legal_moves Scenario.after_e4) = Some move
    ∧ move ∈ legal_moves Scenario.after_e4
    ∧ length (transcript w') = length (transcript w) + Z.to_nat 3
    ∧ run.2 = Ok (None, start ++ mjoin (replicate messages invalid_format_feedback))
    ∧ Z.to_nat 3 ≤ messages.
Proof.
  intros w start run.
  apply (z9z9_gets_format_feedback Scenario.after_e4 3 w).
  - vm_compute. discriminate.
  - exact scenario_randbelow_in_range.
  - vm_compute. repeat constructor.
Defined.

Lemma get_gemini_move_without_retries_witness :
  let w := Scenario.world _ Scenario.third_time_lucky in
  ∃ w' move,
    get_gemini_move Scenario.after_e4 0 w = (w', Ok move)
    ∧ move ∈ legal_moves Scenario.after_e4
    ∧ uniform_pick w (legal_moves Scenario.after_e4) = Some move
    ∧ transcript w' = transcript w
    ∧ gemini w' = gemini w.
Proof.
  intros w. apply (get_gemini_move_without_retries Scenario.after_e4 w).
  - vm_compute. discriminate.
  - exact scenario_randbelow_in_range.
Defined.

(** C2, as the claim has it, fails: the engine dies at its first move, the
    fault leaves [play_game], and [quit] has been called on no process. *)
Lemma engine_fault_leaves_the_engine_running :
  ∃ w' e,
    play_game (opponent := Scenario.crashing) 10
      (Scenario.world Scenario.crashing Scenario.third_time_lucky) = Some (w', Raised e)
    ∧ processes w' ≠ []
    ∧ Forall (λ p, terminated p = false) (processes w').
Proof.
  eexists _, _. split; [vm_compute; reflexivity|]. split.
  - vm_compute. discriminate.
  - vm_compute. repeat constructor.
Qed.

(** On the other path the game is played to its end and the engine is
    told to quit. *)
Example finished_game_quits_the_engine :
  ∃ w' board,
    play_game 10 (Scenario.world Scenario.steady Scenario.third_time_lucky)
      = Some (w', Ok board)
    ∧ board = [Scenario.e2e4; Scenario.e7e5; Scenario.e2e4; Scenario.e7e5]
    ∧ last (quit_called w') = Some true.
Proof.
  eexists _, _. split; [vm_compute; reflexivity|]. split; vm_compute; reflexivity.
Qed.

Lemma play_game_records_a_legal_game_witness :
  ∃ w' board game_moves,
    play_game_log 10 (Scenario.world Scenario.steady Scenario.third_time_lucky)
      = Some (w', Ok (board, game_moves))
    ∧ play_game 10 (Scenario.world Scenario.steady Scenario.third_time_lucky)
        = Some (w', Ok board)
    ∧ recorded board game_moves ∧ is_game_over board = true.
Proof.
  eexists _, _, _. split; [vm_compute; reflexivity|].
  refine (proj2 (proj2 (proj2 (play_game_records_a_legal_game _ _ _))) _ _ _ _ _ _).
  - exact (scenario_engine_plays_legal 10).
  - intros b _. apply scenario_board_has_moves.
  - exact scenario_randbelow_in_range.
  - vm_compute. reflexivity.
Defined.

Lemma save_game_data_appends_one_record_witness :
  let board : Board := [Scenario.e2e4; Scenario.e7e5] in
  let w := Scenario.world Scenario.steady Scenario.third_time_lucky in
  let pgn_game := pgn_game_of board (now w) in
  let archived := default [] (files w !! TRAINING_DATA) in
  ∃ w',
    save_game_data board w = (w', Ok ())
    ∧ files w' = <[TRAINING_DATA := archived ++ str_of_game pgn_game ++ [NEWLINE; NEWLINE]]> (files w)
    ∧ (∀ path, path ≠ TRAINING_DATA → files w' !! path = files w !! path)
    ∧ final_board pgn_game = board
    ∧ headers pgn_game !! lit "Event" = Some (lit "Cyberchess Dojo")
    ∧ headers pgn_game !! lit "White" = Some (lit "Stockfish Level 5")
    ∧ headers pgn_game !! lit "Black" = Some (lit "Gemini 1.5 Flash")
    ∧ headers pgn_game !! lit "Date" = Some (strftime_Y_m_d (now w))
    ∧ is_YYYY_MM_DD (strftime_Y_m_d (now w)) = true.
Proof.
  intros board w.
  apply (save_game_data_appends_one_record board w); simpl; lia.
Defined.

Example archived_date : strftime_Y_m_d Scenario.today = lit "2026.11.03".
Proof. vm_compute. reflexivity. Qed.

(** Two games archived one after the other: the second record stands
    behind the first, which is unchanged. *)
Example two_games_archived :
  let w := Scenario.world Scenario.steady Scenario.third_time_lucky in
  let first := [Scenario.e2e4; Scenario.e7e5] in
  let second := [Scenario.d2d4; Scenario.d7d5] in
  let w1 := (save_game_data first w).1 in
  let w2 := (save_game_data second w1).1 in
  let record1 := str_of_game (pgn_game_of first Scenario.today) in
  let record2 := str_of_game (pgn_game_of second Scenario.today) in
  files w1 !! TRAINING_DATA = Some (record1 ++ [NEWLINE; NEWLINE])
  ∧ files w2 !! TRAINING_DATA
      = Some (record1 ++ [NEWLINE; NEWLINE] ++ record2 ++ [NEWLINE; NEWLINE]).
Proof. split; vm_compute; reflexivity. Qed.

End Arena.

(** * Further properties of the script *)

(** ** Parsing what the prompt lists *)

Lemma well_formed_in_coordinate_moves (move : Move) :
  well_formed move = true → move ∈ coordinate_moves.
Proof.
  destruct move as [f t p d]. unfold well_formed.
  cbn [from_square to_square promotion drop]. intros W.
  repeat match goal with H : _ && _ = true |- _ => apply andb_prop in H as [H ?] end.
  destruct d; [done|].
  apply Nat.ltb_lt in W.
  match goal with H : (t <? 64) = true |- _ => apply Nat.ltb_lt in H end.
  unfold coordinate_moves.
  apply list_elem_of_In, in_flat_map. exists f. split; [apply in_seq; lia|].
  apply in_flat_map. exists t. split; [apply in_seq; lia|].
  apply in_map_iff. exists p. split; [done|].
  destruct p as [n|]; [right|by left].
  apply in_map_iff. exists n. split; [done|].
  match goal with H : (1 <=? n) && (n <=? 6) = true |- _ =>
    apply andb_prop in H as [L U]; apply Nat.leb_le in L, U end.
  apply in_seq. lia.
Qed.

Lemma checked_on_coordinate_moves (check : Move → bool) :
  forallb (λ move, implb (well_formed move) (check move)) coordinate_moves = true →
  ∀ move, well_formed move = true → check move = true.
Proof.
  intros F move W. rewrite forallb_forall in F.
  specialize (F move (proj1 (list_elem_of_In _ _) (well_formed_in_coordinate_moves move W))).
  by rewrite W in F.
Qed.

Lemma from_uci_uci_checked :
  forallb (λ move, implb (well_formed move)
                     match from_uci (uci move) with
                     | Ok move' => bool_decide (move' = move)
                     | Raised _ => false
                     end) coordinate_moves = true.
Proof. vm_compute. reflexivity. Qed.

(** The text [uci] writes for a move is read back by [from_uci] as that
    move. *)
Lemma from_uci_uci (move : Move) :
  well_formed move = true → from_uci (uci move) = Ok move.
Proof.
  intros W.
  pose proof (checked_on_coordinate_moves _ from_uci_uci_checked move W) as C.
  cbv beta in C. destruct (from_uci (uci move)) as [m'|]; [|done].
  by apply bool_decide_eq_true in C as ->.
Qed.

Lemma uci_has_nothing_to_sanitize_checked :
  forallb (λ move, implb (well_formed move)
                     (forallb (λ c, negb (isspace c) && negb (c =? BACKTICK)%N) (uci move)))
    coordinate_moves = true.
Proof. vm_compute. reflexivity. Qed.

Lemma uci_has_nothing_to_sanitize (move : Move) :
  well_formed move = true →
  Forall (λ c, isspace c = false ∧ c ≠ BACKTICK) (uci move).
Proof.
  intros W.
  pose proof (checked_on_coordinate_moves _ uci_has_nothing_to_sanitize_checked move W) as C.
  cbv beta in C. rewrite forallb_forall in C. apply Forall_forall. intros c I.
  apply list_elem_of_In, C in I. apply andb_prop in I as [I1 I2].
  apply negb_true_iff in I1, I2. split; [done|]. by apply N.eqb_neq in I2.
Qed.

(** ** Sanitizing plain answers *)

Lemma lstrip_decompose (s : str) :
  ∃ k, s = k ++ lstrip s ∧ Forall (λ c, isspace c = true) k.
Proof.
  induction s as [|c s (k & E & F)]; simpl.
  - exists []. by split.
  - destruct (isspace c) eqn:W.
    + exists (c :: k). split; [simpl; by rewrite <- E | by constructor].
    + exists []. by split.
Qed.

Lemma rstrip_decompose (s : str) :
  ∃ k, s = rstrip s ++ k ∧ Forall (λ c, isspace c = true) k.
Proof.
  unfold rstrip. destruct (lstrip_decompose (rev s)) as (k & E & F).
  exists (rev k). split.
  - rewrite <- rev_app_distr, <- E. by rewrite rev_involutive.
  - apply Forall_forall. intros c I. rewrite Forall_forall in F. apply F.
    by apply list_elem_of_In, in_rev, list_elem_of_In in I.
Qed.

Lemma sanitize_filter (raw : str) :
  sanitize raw = filter (λ c, c ≠ NEWLINE ∧ c ≠ SPACE ∧ c ≠ BACKTICK) (strip raw).
Proof.
  unfold sanitize, replace_with_empty. cbv zeta.
  rewrite !filter_filter_and. apply list_filter_iff. tauto.
Qed.

Lemma filter_removed (k : str) :
  Forall (λ c, c = NEWLINE ∨ c = SPACE ∨ c = BACKTICK) k →
  filter (λ c, c ≠ NEWLINE ∧ c ≠ SPACE ∧ c ≠ BACKTICK) k = [].
Proof.
  induction 1 as [|c k H F IH]; [done|].
  rewrite filter_cons, decide_False by tauto. exact IH.
Qed.

Lemma filter_kept (k : str) :
  Forall (λ c, c ≠ NEWLINE ∧ c ≠ SPACE ∧ c ≠ BACKTICK) k →
  filter (λ c, c ≠ NEWLINE ∧ c ≠ SPACE ∧ c ≠ BACKTICK) k = k.
Proof.
  induction 1 as [|c k H F IH]; [done|].
  rewrite filter_cons, decide_True by done. by rewrite IH.
Qed.

(** When the only white space of a text is spaces and newlines, stripping
    changes nothing in the end: the sanitized text is the text without its
    spaces, newlines and backticks. *)
Lemma sanitize_plain (raw : str) :
  plain_white_space raw →
  sanitize raw = filter (λ c, c ≠ NEWLINE ∧ c ≠ SPACE ∧ c ≠ BACKTICK) raw.
Proof.
  unfold plain_white_space. intros Plain. rewrite sanitize_filter. unfold strip.
  destruct (lstrip_decompose raw) as (k1 & E1 & F1).
  destruct (rstrip_decompose (lstrip raw)) as (k2 & E2 & F2).
  rewrite E1 at 2. rewrite E2 at 2. rewrite E1, E2 in Plain.
  apply Forall_app in Plain as [P1 Plain]. apply Forall_app in Plain as [_ P2].
  assert (∀ k, Forall (λ c, isspace c = true) k →
               Forall (λ c, isspace c = true → c = NEWLINE ∨ c = SPACE) k →
               Forall (λ c, c = NEWLINE ∨ c = SPACE ∨ c = BACKTICK) k) as Removed.
  { intros k F P. rewrite Forall_forall in *. intros c I.
    destruct (P c I (F c I)); tauto. }
  rewrite !filter_app, (filter_removed k1), (filter_removed k2) by auto.
  by rewrite app_nil_r.
Qed.

(** ** Answers that repeat a listed move *)

Lemma wrapped_move_is_sanitized (pre post : str) (move : Move) :
  Forall (λ c, c = NEWLINE ∨ c = SPACE ∨ c = BACKTICK) pre →
  Forall (λ c, c = NEWLINE ∨ c = SPACE ∨ c = BACKTICK) post →
  well_formed move = true →
  sanitize (pre ++ uci move ++ post) = uci move.
Proof.
  intros Pre Post W.
  pose proof (uci_has_nothing_to_sanitize move W) as U.
  assert (∀ c, c = NEWLINE ∨ c = SPACE ∨ c = BACKTICK →
               isspace c = true → c = NEWLINE ∨ c = SPACE) as Plain.
  { intros c [ -> | [ -> | -> ] ] S; try tauto. vm_compute in S. discriminate. }
  rewrite sanitize_plain.
  - rewrite !filter_app, (filter_removed pre), (filter_removed post) by done.
    rewrite app_nil_r. simpl. apply filter_kept.
    eapply Forall_impl; [exact U|]. intros c [S B]. cbv beta.
    repeat split; [intros ->|intros ->|done]; vm_compute in S; discriminate.
  - unfold plain_white_space. repeat (apply Forall_app; split).
    + eapply Forall_impl; [exact Pre|]. exact Plain.
    + eapply Forall_impl; [exact U|]. intros c [S _]. by rewrite S.
    + eapply Forall_impl; [exact Post|]. exact Plain.
Qed.

Section Further.
Context {provider : BoardStateProvider} {source : MoveProposalSource}
  {random : RandomSource} {opponent : DeterministicOpponent} {runtime : Runtime}.

(** X5.  When the model's first answer is the UCI text of a legal move as
    the prompt lists it, alone or wrapped in spaces, newlines and
    backticks, [get_gemini_move] returns that move after this one call and
    without drawing from [random]. *)
Theorem listed_move_is_accepted_at_once (board : Board) (retries : Z) (w : World)
    (pre post : str) (move : Move) :
  (1 ≤ retries)%Z →
  (generate_content (gemini w) (initial_prompt board (map uci (legal_moves board)))).2
    = Ok (pre ++ uci move ++ post) →
  Forall (λ c, c = NEWLINE ∨ c = SPACE ∨ c = BACKTICK) pre →
  Forall (λ c, c = NEWLINE ∨ c = SPACE ∨ c = BACKTICK) post →
  well_formed move = true →
  move ∈ legal_moves board →
  ∃ w', get_gemini_move board retries w = (w', Ok move)
        ∧ length (transcript w') = S (length (transcript w))
        ∧ random_state w' = random_state w.
Proof.
  intros R G Pre Post W I.
  destruct (Z.to_nat retries) as [|n] eqn:N; [lia|].
  unfold get_gemini_move, mbind, M_bind. rewrite N. cbn [retry_loop].
  unfold mbind, M_bind.
  destruct (attempt_round board (initial_prompt board (map uci (legal_moves board))) w)
    as (w' & E & T & S).
  rewrite E, G.
  assert (accepted board (Ok (pre ++ uci move ++ post)) = Some move) as ->.
  { unfold accepted, proposed.
    rewrite wrapped_move_is_sanitized, from_uci_uci by done.
    by rewrite listed_moves_are_legal. }
  exists w'. split; [done|]. split; [|apply S].
  rewrite T, length_app. simpl. lia.
Qed.

Lemma upper_case_does_not_parse_checked :
  forallb (λ move, implb (well_formed move)
                     match proposed (Ok (map upper (uci move))) with
                     | Ok _ => false
                     | Raised _ => true
                     end) coordinate_moves = true.
Proof. vm_compute. reflexivity. Qed.

(** X6.  Letter case matters: when the model answers with the UCI text of
    a move in upper case, the text does not parse, whatever the board, and
    the round ends in the handler with the format message. *)
Theorem upper_case_answer_is_rejected (board : Board) (prompt : str) (w : World)
    (move : Move) :
  well_formed move = true →
  (generate_content (gemini w) prompt).2 = Ok (map upper (uci move)) →
  (∃ e, proposed (Ok (map upper (uci move))) = Raised e)
  ∧ (attempt board prompt w).2
      = Ok (Next (prompt ++ invalid_format_feedback ++ invalid_format_feedback)).
Proof.
  intros W G.
  pose proof (checked_on_coordinate_moves _ upper_case_does_not_parse_checked move W) as C.
  cbv beta in C.
  destruct (proposed (Ok (map upper (uci move)))) as [m|e] eqn:P; [done|].
  split; [by exists e|].
  destruct (attempt_round board prompt w) as (w' & E & _).
  rewrite E, G. unfold accepted, appended. by rewrite P.
Qed.

(** ** The call as a whole *)

Lemma fallback_frame (board : Board) (w : World) :
  transcript (fallback board w).1 = transcript w
  ∧ gemini (fallback board w).1 = gemini w
  ∧ processes (fallback board w).1 = processes w
  ∧ now (fallback board w).1 = now w
  ∧ files (fallback board w).1 = files w
  ∧ stdout w `prefix_of` stdout (fallback board w).1.
Proof.
  unfold fallback, random_choice, mbind, M_bind, print.
  cbn [fst snd set_stdout random_state].
  destruct (legal_moves board) as [|m l].
  - cbn [fst gemini transcript processes now files stdout].
    repeat split; try done. by apply prefix_app_r.
  - destruct (randbelow _ _) as [r i].
    destruct ((m :: l) !! i); cbn [fst set_random_state gemini transcript processes now files stdout];
      repeat split; try done; by apply prefix_app_r.
Qed.

(** The loop, and what follows it. *)
Lemma get_gemini_move_loop (board : Board) (retries : Z) (w : World) :
  let start := initial_prompt board (map uci (legal_moves board)) in
  ∃ w1 r prompt' exchanges,
    retry_loop (Z.to_nat retries) board start w = (w1, Ok (r, prompt'))
    ∧ transcript w1 = transcript w ++ exchanges
    ∧ negotiation board (Z.to_nat retries) start exchanges r prompt'
    ∧ same_outside_session w w1
    ∧ get_gemini_move board retries w
        = match r with
          | Some move => (w1, Ok move)
          | None => fallback board w1
          end.
Proof.
  intros start.
  destruct (retry_loop_negotiation (Z.to_nat retries) board start w)
    as (w1 & r & prompt' & exchanges & E & T & N & S).
  exists w1, r, prompt', exchanges. repeat split; try done; try apply S.
  unfold get_gemini_move, mbind, M_bind. fold start. rewrite E.
  by destruct r.
Qed.

(** X1.  On a board without legal moves no proposal can be accepted: all
    the rounds are used, and then [random.choice] raises [IndexError] on
    the empty list.  The exception leaves [get_gemini_move]. *)
Theorem get_gemini_move_without_legal_moves (board : Board) (retries : Z) (w : World) :
  legal_moves board = [] →
  ∃ w',
    get_gemini_move board retries w
      = (w', Raised (IndexError (lit "Cannot choose from an empty sequence")))
    ∧ length (transcript w') = length (transcript w) + Z.to_nat retries
    ∧ random_state w' = random_state w.
Proof.
  intros Empty.
  destruct (get_gemini_move_loop board retries w)
    as (w1 & r & prompt' & exchanges & _ & T & N & S & G).
  assert (Forall (λ e, accepted board e.2 = None) exchanges) as F.
  { apply Forall_forall. intros e _. unfold accepted.
    destruct (proposed e.2) as [m|]; [|done].
    destruct (is_legal board m) eqn:L; [|done].
    destruct (unlisted_legal_move_is_castling board m L) as (c & _ & I & _).
    - rewrite Empty. apply not_elem_of_nil.
    - rewrite Empty in I. by apply not_elem_of_nil in I. }
  destruct (negotiation_all_rejected _ _ _ _ _ _ N F) as [-> L].
  rewrite G. unfold fallback, random_choice, mbind, M_bind, print.
  cbn [fst snd]. rewrite Empty. eexists. split; [reflexivity|].
  cbn [transcript random_state set_stdout]. rewrite T, length_app, L.
  split; [done|apply S].
Qed.

(** X2.  A number of retries of zero or below makes no round: the model
    is not called and the result is what the fallback gives. *)
Theorem get_gemini_move_with_no_rounds (board : Board) (retries : Z) (w : World) :
  (retries ≤ 0)%Z →
  get_gemini_move board retries w = fallback board w
  ∧ transcript (get_gemini_move board retries w).1 = transcript w
  ∧ gemini (get_gemini_move board retries w).1 = gemini w.
Proof.
  intros R.
  assert (get_gemini_move board retries w = fallback board w) as ->.
  { unfold get_gemini_move, mbind, M_bind.
    by replace (Z.to_nat retries) with 0 by lia. }
  split; [done|]. split; apply fallback_frame.
Qed.

(** X3.  When the board has exactly one legal move, [get_gemini_move]
    returns it, whatever the model answers. *)
Theorem the_only_legal_move_is_returned (board : Board) (retries : Z) (w : World)
    (move : Move) :
  legal_moves board = [move] → randbelow_in_range →
  (get_gemini_move board retries w).2 = Ok move.
Proof.
  intros Only R.
  destruct (get_gemini_move_run board retries w) as
    (_ & _ & _ & _ & w' & m & _ & _ & _ & _ & G & I & _); [by rewrite Only|done|].
  rewrite G. destruct (decide (m ∈ legal_moves board)) as [Listed|Unlisted].
  - rewrite Only in Listed. by apply list_elem_of_singleton in Listed as ->.
  - destruct (unlisted_legal_move_is_castling board m I Unlisted)
      as (castling & other & C & O & Ne).
    rewrite Only in C, O. apply list_elem_of_singleton in C, O. congruence.
Qed.

Lemma appended_is_not_empty (response : Result str) : 0 < length (appended response).
Proof.
  unfold appended, illegal_move_feedback, invalid_format_feedback.
  destruct response as [text|]; [destruct (proposed (Ok text))|];
    rewrite length_app; simpl; lia.
Qed.

Lemma negotiation_chain (board : Board) rounds prompt exchanges r prompt' :
  negotiation board rounds prompt exchanges r prompt' →
  (∀ p response, exchanges !! 0 = Some (p, response) → p = prompt)
  ∧ (∀ i p response p' response',
       exchanges !! i = Some (p, response) →
       exchanges !! S i = Some (p', response') →
       accepted board response = None ∧ p' = p ++ appended response).
Proof.
  induction 1 as [|? ? ? ? A|? ? ? ? ? ? A N [IH0 IH]].
  - split; intros; done.
  - split.
    + by intros p r [= <- <-].
    + intros i p r p' r' _ L. by destruct i.
  - split.
    + by intros p r0 [= <- <-].
    + intros [|i] p r0 p' r' L L'.
      * injection L as <- <-. split; [done|]. by apply (IH0 p' r').
      * by apply (IH i p r0 p' r').
Qed.

(** X4.  Within one call the prompt is only ever extended.  The first
    prompt sent is the initial one; each later prompt is the prompt of the
    round before, whose proposal was not accepted, followed by that
    round's feedback, which is not empty. *)
Theorem prompts_only_grow (board : Board) (retries : Z) (w : World) :
  let exchanges :=
    skipn (length (transcript w)) (transcript (get_gemini_move board retries w).1) in
  (∀ p response, exchanges !! 0 = Some (p, response) →
     p = initial_prompt board (map uci (legal_moves board)))
  ∧ (∀ i p response p' response',
       exchanges !! i = Some (p, response) →
       exchanges !! S i = Some (p', response') →
       accepted board response = None
       ∧ p' = p ++ appended response
       ∧ length p < length p').
Proof.
  destruct (get_gemini_move_loop board retries w)
    as (w1 & r & prompt' & exchanges & _ & T & N & _ & G).
  assert (transcript (get_gemini_move board retries w).1 = transcript w ++ exchanges) as ->.
  { rewrite G. destruct r; [done|]. rewrite <- T. apply fallback_frame. }
  rewrite drop_app_length. cbv zeta.
  destruct (negotiation_chain _ _ _ _ _ _ N) as [C0 C]. split; [exact C0|].
  intros i p response p' response' L L'.
  destruct (C i p response p' response' L L') as [A ->].
  repeat split; try done. rewrite length_app.
  pose proof (appended_is_not_empty response). lia.
Qed.

Lemma attempt_console (board : Board) (prompt : str) (w : World) :
  stdout w `prefix_of` stdout (attempt board prompt w).1.
Proof.
  unfold attempt, try_except, mbind, M_bind, generate_text, lift, print, mret, M_ret.
  destruct (generate_content (gemini w) prompt) as [session [text|e]];
    cbn [fst snd set_gemini set_stdout stdout].
  - destruct (from_uci (sanitize text)) as [move|e];
      cbn [fst snd set_gemini set_stdout stdout].
    + destruct (is_legal board move);
        cbn [fst snd set_gemini set_stdout stdout]; [done|by apply prefix_app_r].
    + by apply prefix_app_r.
  - by apply prefix_app_r.
Qed.

Lemma retry_loop_console (rounds : nat) (board : Board) (prompt : str) (w : World) :
  stdout w `prefix_of` stdout (retry_loop rounds board prompt w).1.
Proof.
  revert prompt w. induction rounds as [|rounds IH]; intros prompt w; [done|].
  cbn [retry_loop]. unfold mbind, M_bind.
  pose proof (attempt_console board prompt w) as A.
  destruct (attempt_round board prompt w) as (w1 & E & _). rewrite E in *.
  cbn [fst] in A.
  destruct (accepted board _); [done|].
  etransitivity; [exact A|apply IH].
Qed.

(** X7.  [get_gemini_move] talks to the model and to the console only: the
    engine processes, the files and the clock are as before, whatever the
    outcome, and the lines printed before are still there, in front. *)
Theorem get_gemini_move_leaves_the_rest_alone (board : Board) (retries : Z) (w : World) :
  let w' := (get_gemini_move board retries w).1 in
  processes w' = processes w ∧ files w' = files w ∧ now w' = now w
  ∧ stdout w `prefix_of` stdout w'.
Proof.
  pose proof (retry_loop_console (Z.to_nat retries) board
                (initial_prompt board (map uci (legal_moves board))) w) as C.
  destruct (get_gemini_move_loop board retries w)
    as (w1 & r & prompt' & exchanges & E & _ & _ & (_ & P & N & F) & G).
  rewrite E in C. cbn [fst] in C. cbv zeta. rewrite G.
  destruct r as [m|]; cbn [fst]; [done|].
  destruct (fallback_frame board w1) as (_ & _ & P' & N' & F' & C').
  repeat split; try congruence. by etransitivity.
Qed.

(** ** The game and the resources around it *)

Lemma get_gemini_move_frame (board : Board) (retries : Z) (w : World) :
  files (get_gemini_move board retries w).1 = files w
  ∧ now (get_gemini_move board retries w).1 = now w.
Proof.
  destruct (get_gemini_move_loop board retries w)
    as (w1 & r & prompt' & exchanges & _ & _ & _ & (_ & _ & N & F) & G).
  rewrite G. destruct r as [m|]; cbn [fst]; [done|].
  destruct (fallback_frame board w1) as (_ & _ & _ & N' & F' & _).
  split; congruence.
Qed.

Lemma get_gemini_move_calls (board : Board) (retries : Z) (w : World) :
  length (transcript (get_gemini_move board retries w).1)
    ≤ length (transcript w) + Z.to_nat retries.
Proof.
  destruct (get_gemini_move_loop board retries w)
    as (w1 & r & prompt' & exchanges & _ & T & N & _ & G).
  pose proof (negotiation_length _ _ _ _ _ _ N) as L.
  assert (transcript (get_gemini_move board retries w).1 = transcript w1) as ->.
  { rewrite G. destruct r; [done|]. apply fallback_frame. }
  rewrite T, length_app. lia.
Qed.

Lemma with_engine_frame {A} (handle : nat) (call : Engine → Engine * Result A)
    (w : World) (n : nat) :
  n ≤ handle →
  files (with_engine handle call w).1 = files w
  ∧ now (with_engine handle call w).1 = now w
  ∧ take n (processes (with_engine handle call w).1) = take n (processes w).
Proof.
  intros Le. unfold with_engine.
  destruct (processes w !! handle) as [[e [|]]|]; [done| |done].
  destruct (call e) as [e' r]. cbn [fst set_processes files now processes].
  repeat split. by apply take_insert_ge.
Qed.

Lemma popen_uci_spec (path : str) (w : World) :
  match popen_uci path w with
  | (w', Ok handle) =>
      handle = length (processes w)
      ∧ (∃ e, processes w' = processes w ++ [mkProcess e false])
      ∧ files w' = files w ∧ now w' = now w
      ∧ transcript w' = transcript w ∧ stdout w' = stdout w
  | (w', Raised e) => w' = w ∧ spawn path = Raised e
  end.
Proof.
  unfold popen_uci. destruct (spawn path) as [e|x]; [|done].
  repeat split; try done. by exists e.
Qed.

Lemma play_game_setup_frame (w : World) :
  let n := length (processes w) in
  match play_game_setup w with
  | (w', Ok (_, engine, _)) =>
      engine = S n ∧ files w' = files w ∧ now w' = now w
      ∧ take n (processes w') = processes w ∧ transcript w' = transcript w
  | (w', Raised _) =>
      files w' = files w ∧ now w' = now w
      ∧ take n (processes w') = processes w ∧ transcript w' = transcript w
  end.
Proof.
  intros n. unfold play_game_setup, mbind, M_bind, print, mret, M_ret.
  pose proof (popen_uci_spec STOCKFISH_PATH w) as Pa.
  destruct (popen_uci STOCKFISH_PATH w) as [wa [ha|?]].
  2:{ destruct Pa as [-> _]. repeat split. subst n. by rewrite take_ge. }
  destruct Pa as (-> & [ea Qa] & Fa & Na & Ta & _).
  assert (take n (processes wa) = processes w) as Ka.
  { rewrite Qa. subst n. by rewrite take_app_length. }
  pose proof (popen_uci_spec STOCKFISH_PATH wa) as Pb.
  destruct (popen_uci STOCKFISH_PATH wa) as [wb [hb|?]].
  2:{ destruct Pb as [-> _]. done. }
  destruct Pb as (-> & [eb Qb] & Fb & Nb & Tb & _).
  assert (length (processes wa) = S n) as La.
  { rewrite Qa, length_app. simpl. subst n. lia. }
  assert (take n (processes wb) = processes w) as Kb.
  { rewrite Qb, take_app_le by lia. exact Ka. }
  unfold engine_configure.
  match goal with |- context [with_engine ?h ?c ?w0] =>
    destruct (with_engine_frame h c w0 n ltac:(lia)) as (Fc & Nc & Kc);
    pose proof (with_engine_transcript h c w0) as Tc;
    destruct (with_engine h c w0) as [wc [[]|?]] end;
    cbn [fst] in *; cbn [files now processes transcript set_stdout];
    repeat split; congruence.
Qed.

Lemma game_turn_frame (engine : nat) (board : Board) (game_moves : list Move)
    (w : World) (n : nat) :
  n ≤ engine →
  files (game_turn engine board game_moves w).1 = files w
  ∧ now (game_turn engine board game_moves w).1 = now w
  ∧ take n (processes (game_turn engine board game_moves w).1) = take n (processes w).
Proof.
  intros Le. unfold game_turn, mbind, M_bind, print, mret, M_ret. cbn [fst snd].
  destruct (turn board).
  - cbn [fst snd]. unfold engine_play.
    match goal with |- context [with_engine ?h ?c ?w0] =>
      pose proof (with_engine_frame h c w0 n Le) as F;
      destruct (with_engine h c w0) as [w1 [move|e]] end; exact F.
  - cbn [fst snd].
    match goal with |- context [get_gemini_move ?b ?r ?w0] =>
      pose proof (get_gemini_move_frame b r w0) as [F N];
      pose proof (get_gemini_move_processes b r w0) as P;
      destruct (get_gemini_move b r w0) as [w1 [move|e]] end;
      cbn [fst snd set_stdout files now processes] in *; by rewrite F, N, P.
Qed.

Lemma game_turn_calls (engine : nat) (board : Board) (game_moves : list Move) (w : World) :
  length (transcript (game_turn engine board game_moves w).1) ≤ length (transcript w) + 3
  ∧ ∀ board' game_moves',
      (game_turn engine board game_moves w).2 = Ok (board', game_moves') →
      length game_moves' = S (length game_moves).
Proof.
  unfold game_turn, mbind, M_bind, print, mret, M_ret. cbn [fst snd].
  destruct (turn board).
  - cbn [fst snd]. unfold engine_play.
    match goal with |- context [with_engine ?h ?c ?w0] =>
      pose proof (with_engine_transcript h c w0) as T;
      destruct (with_engine h c w0) as [w1 [move|e]] end;
      cbn [fst snd set_stdout transcript] in *; rewrite T; (split; [lia|]); [|done].
    intros b' ms' [= _ <-]. rewrite length_app. simpl. lia.
  - cbn [fst snd].
    match goal with |- context [get_gemini_move ?b ?r ?w0] =>
      pose proof (get_gemini_move_calls b r w0) as T;
      destruct (get_gemini_move b r w0) as [w1 [move|e]] end;
      cbn [fst snd set_stdout transcript] in *; (split; [lia|]); [|done].
    intros b' ms' [= _ <-]. rewrite length_app. simpl. lia.
Qed.

Lemma game_loop_frame (fuel : nat) (engine : nat) (board : Board)
    (game_moves : list Move) (w w' : World) (r : Result (Board * list Move)) (n : nat) :
  n ≤ engine →
  game_loop fuel engine board game_moves w = Some (w', r) →
  files w' = files w ∧ now w' = now w
  ∧ take n (processes w') = take n (processes w)
  ∧ ∀ board' game_moves', r = Ok (board', game_moves') →
      length (transcript w') + 3 * length game_moves
        ≤ length (transcript w) + 3 * length game_moves'.
Proof.
  intros Le. revert board game_moves w.
  induction fuel as [|fuel IH]; intros board game_moves w; simpl.
  - destruct (is_game_over board); [|done]. intros [= <- <-].
    repeat split. intros ? ? [= <- <-]. lia.
  - destruct (is_game_over board).
    { intros [= <- <-]. repeat split. intros ? ? [= <- <-]. lia. }
    destruct (game_turn_frame engine board game_moves w n Le) as (F & N & K).
    destruct (game_turn_calls engine board game_moves w) as [T M].
    destruct (game_turn engine board game_moves w) as [w1 [[b1 m1]|e]];
      cbn [fst snd] in *.
    + intros L. destruct (IH _ _ _ L) as (F' & N' & K' & T').
      repeat split; try congruence.
      intros b' ms' ->. specialize (T' _ _ eq_refl). specialize (M _ _ eq_refl). lia.
    + intros [= <- <-]. repeat split; congruence.
Qed.

Lemma play_game_end_frame (engine : nat) (board : Board) (w : World) (n : nat) :
  n ≤ engine →
  (play_game_end engine board w).2 = Ok board
  ∧ files (play_game_end engine board w).1 = files w
  ∧ now (play_game_end engine board w).1 = now w
  ∧ take n (processes (play_game_end engine board w).1) = take n (processes w)
  ∧ transcript (play_game_end engine board w).1 = transcript w
  ∧ quit_called (play_game_end engine board w).1 = <[engine := true]> (quit_called w).
Proof.
  intros Le. unfold play_game_end, mbind, M_bind, print, engine_quit, mret, M_ret, quit_called.
  cbn [fst snd set_stdout processes].
  destruct (processes w !! engine) as [p|] eqn:P;
    cbn [fst snd set_processes set_stdout files now processes transcript].
  - repeat split; [by apply take_insert_ge|by rewrite list_fmap_insert].
  - repeat split. rewrite list_insert_ge; [done|].
    rewrite length_fmap. by apply lookup_ge_None.
Qed.

Lemma play_game_log_frame (fuel : nat) (w w' : World) (r : Result (Board * list Move)) :
  play_game_log fuel w = Some (w', r) →
  files w' = files w ∧ now w' = now w
  ∧ take (length (processes w)) (processes w') = processes w
  ∧ ∀ board game_moves, r = Ok (board, game_moves) →
      length (transcript w') ≤ length (transcript w) + 3 * length game_moves.
Proof.
  unfold play_game_log.
  pose proof (play_game_setup_frame w) as Setup. cbv zeta in Setup.
  pose proof (play_game_setup_start w) as St.
  destruct (play_game_setup w) as [w1 [[[b0 engine] m0]|e]].
  2:{ intros [= <- <-]. destruct Setup as (? & ? & ? & ?). by repeat split. }
  destruct Setup as (-> & F1 & N1 & K1 & T1).
  destruct (St _ _ _ _ eq_refl) as [-> ->].
  destruct (game_loop fuel _ _ _ w1) as [[w2 [[b2 m2]|e]]|] eqn:G; [| |done].
  - destruct (game_loop_frame _ (S (length (processes w))) _ _ _ _ _
                (length (processes w)) ltac:(lia) G)
      as (F2 & N2 & K2 & T2).
    destruct (play_game_end_frame (S (length (processes w))) b2 w2
                (length (processes w)) ltac:(lia)) as (R3 & F3 & N3 & K3 & T3 & _).
    destruct (play_game_end _ b2 w2) as [w3 [b3|e]]; cbn [fst snd] in *; [|done].
    intros [= <- <-]. repeat split; try congruence.
    intros ? ? [= <- <-]. specialize (T2 _ _ eq_refl). rewrite T3, <- T1.
    cbn [length] in T2. lia.
  - destruct (game_loop_frame _ (S (length (processes w))) _ _ _ _ _
                (length (processes w)) ltac:(lia) G)
      as (F2 & N2 & K2 & _).
    intros [= <- <-]. repeat split; congruence.
Qed.

Lemma play_game_keeps_to_its_own_frame (fuel : nat) (w w' : World) (r : Result Board) :
  play_game fuel w = Some (w', r) →
  files w' = files w ∧ now w' = now w
  ∧ take (length (processes w)) (processes w') = processes w.
Proof.
  unfold play_game.
  destruct (play_game_log fuel w) as [[w1 [[b ms]|e]]|] eqn:L; [| |done];
    intros [= <- <-]; destruct (play_game_log_frame _ _ _ _ L) as (? & ? & ? & _);
    by repeat split.
Qed.

(** X8.  [play_game] leaves the files and the clock alone, and the engine
    processes that were there before the call: whatever it starts, calls
    or quits is a process of its own, added behind them. *)
Theorem play_game_keeps_to_its_own (fuel : nat) (w w' : World) (r : Result Board) :
  play_game fuel w = Some (w', r) →
  files w' = files w ∧ now w' = now w
  ∧ take (length (processes w)) (processes w') = processes w
  ∧ length (processes w) ≤ length (processes w').
Proof.
  intros P. destruct (play_game_keeps_to_its_own_frame _ _ _ _ P) as (F & N & K).
  repeat split; try done. rewrite <- K at 1. rewrite length_take. lia.
Qed.

(** X11.  A finished game has cost at most three calls of the model for
    each move played: [get_gemini_move] runs with its default of three
    retries and the engine's turns make no call. *)
Theorem play_game_calls_the_model_thrice_a_move_at_most (fuel : nat) (w w' : World)
    (board : Board) (game_moves : list Move) :
  play_game_log fuel w = Some (w', Ok (board, game_moves)) →
  length (transcript w') ≤ length (transcript w) + 3 * length game_moves.
Proof.
  intros L. destruct (play_game_log_frame _ _ _ _ L) as (_ & _ & _ & T).
  exact (T board game_moves eq_refl).
Qed.

(** X9.  When the engine cannot be started, [play_game] raises the error
    of the launch before anything else happens: nothing is printed, the
    model is not called, and the script ends without writing a game. *)
Theorem play_game_without_engine (fuel : nat) (w : World) (e : Exn) :
  spawn STOCKFISH_PATH = Raised e →
  play_game fuel w = Some (w, Raised e) ∧ main fuel w = Some (w, Raised e).
Proof.
  intros S.
  assert (play_game fuel w = Some (w, Raised e)) as P.
  { unfold play_game, play_game_log, play_game_setup, mbind, M_bind, popen_uci.
    by rewrite S. }
  split; [done|]. unfold main. by rewrite P.
Qed.

Lemma play_game_setup_failure (w w' : World) (e : Exn) :
  play_game_setup w = (w', Raised e) →
  ∃ k, k ≤ 2 ∧ quit_called w' = quit_called w ++ replicate k false.
Proof.
  unfold play_game_setup, mbind, M_bind, print, mret, M_ret.
  pose proof (popen_uci_quit_called STOCKFISH_PATH w) as Pa.
  destruct (popen_uci STOCKFISH_PATH w) as [wa [ha|?]].
  2:{ intros [= <- <-]. exists 0. split; [lia|]. by rewrite Pa, app_nil_r. }
  destruct Pa as [-> Qa].
  pose proof (popen_uci_quit_called STOCKFISH_PATH wa) as Pb.
  destruct (popen_uci STOCKFISH_PATH wa) as [wb [hb|?]].
  2:{ intros [= <- <-]. exists 1. split; [lia|]. by rewrite Pb, Qa. }
  destruct Pb as [-> Qb]. unfold engine_configure.
  match goal with |- context [with_engine ?h ?c ?w0] =>
    pose proof (with_engine_quit_called h c w0) as Qc;
    destruct (with_engine h c w0) as [wc [[]|?]] end;
    cbn [fst] in Qc; cbv beta iota; [done|].
  intros [= <- <-]. exists 2. split; [lia|]. by rewrite Qc, Qb, Qa, <- app_assoc.
Qed.

(** X10.  A call of [play_game] that returns has started two engine
    processes, at lines 176 and 182, and has called [quit] on the second
    one only; a call that raises has started at most two and quit none. *)
Theorem play_game_starts_two_engines (fuel : nat) (w : World) :
  match play_game fuel w with
  | Some (w', Ok _) => quit_called w' = quit_called w ++ [false; true]
  | Some (w', Raised _) =>
      ∃ k, k ≤ 2 ∧ quit_called w' = quit_called w ++ replicate k false
  | None => True
  end.
Proof.
  unfold play_game, play_game_log.
  pose proof (play_game_setup_quit_called w) as S.
  pose proof (play_game_setup_failure w) as Fail.
  destruct (play_game_setup w) as [w1 [[[b0 engine] m0]|e]].
  - destruct S as [-> Q1].
    destruct (game_loop fuel _ b0 m0 w1) as [[w2 [[b2 m2]|e]]|] eqn:G; [| |done].
    + pose proof (game_loop_quit_called _ _ _ _ _ _ _ G) as Q2.
      destruct (play_game_end_frame (S (length (quit_called w))) b2 w2 0 ltac:(lia))
        as (R & _ & _ & _ & _ & Q3).
      destruct (play_game_end _ b2 w2) as [w3 [b3|e]]; cbn [fst snd] in *; [|done].
      rewrite Q3, Q2, Q1, insert_app_r_alt by lia.
      by replace (S (length (quit_called w)) - length (quit_called w)) with 1 by lia.
    + pose proof (game_loop_quit_called _ _ _ _ _ _ _ G) as Q2.
      exists 2. split; [lia|]. by rewrite Q2, Q1.
  - exact (Fail w1 e eq_refl).
Qed.

(** ** The archive and the script *)

Lemma save_game_data_effect (board : Board) (w : World) :
  ∃ w',
    save_game_data board w = (w', Ok ())
    ∧ files w' = <[TRAINING_DATA :=
                     default [] (files w !! TRAINING_DATA)
                       ++ str_of_game (pgn_game_of board (now w)) ++ [NEWLINE; NEWLINE]]>
                   (files w)
    ∧ now w' = now w ∧ transcript w' = transcript w ∧ processes w' = processes w.
Proof.
  unfold save_game_data, mbind, M_bind, open_append, write, print, set_files, set_stdout.
  cbn [fst snd now].
  destruct (files w !! TRAINING_DATA) as [old|] eqn:L;
    cbn [files default id app]; (eexists; split; [reflexivity|]);
    cbn [files now transcript processes]; (split; [|done]);
    apply map_eq; intros path;
    rewrite ?lookup_alter, ?lookup_insert; repeat case_decide; subst;
    rewrite ?L, ?lookup_insert_eq; done.
Qed.

(** X12.  Two games saved one after the other leave the file with what it
    held before, then the first record and an empty line, then the second
    record and an empty line. *)
Theorem two_saves_append_two_records (first second : Board) (w : World) :
  let w1 := (save_game_data first w).1 in
  let w2 := (save_game_data second w1).1 in
  (save_game_data first w).2 = Ok ()
  ∧ (save_game_data second w1).2 = Ok ()
  ∧ files w2
      = <[TRAINING_DATA :=
            default [] (files w !! TRAINING_DATA)
              ++ str_of_game (pgn_game_of first (now w)) ++ [NEWLINE; NEWLINE]
              ++ str_of_game (pgn_game_of second (now w)) ++ [NEWLINE; NEWLINE]]>
          (files w).
Proof.
  destruct (save_game_data_effect first w) as (w1 & E1 & F1 & N1 & _).
  destruct (save_game_data_effect second w1) as (w2 & E2 & F2 & _).
  cbv zeta. rewrite E1. cbn [fst snd]. rewrite E2. cbn [fst snd].
  split; [done|]. split; [done|].
  rewrite F2, F1, N1, lookup_insert_eq, insert_insert_eq. cbn [default id].
  by rewrite <- !app_assoc.
Qed.

Lemma play_game_over (fuel : nat) (w w' : World) (board : Board) :
  play_game fuel w = Some (w', Ok board) → is_game_over board = true.
Proof.
  unfold play_game, play_game_log.
  destruct (play_game_setup w) as [w1 [[[b0 engine] m0]|e]]; [|done].
  destruct (game_loop fuel engine b0 m0 w1) as [[w2 [[b2 m2]|e]]|] eqn:G; [|done|done].
  destruct (game_loop_visits _ _ _ _ _ _ _ _ G) as [_ Over].
  destruct (play_game_end_frame engine b2 w2 0 ltac:(lia)) as (R & _).
  destruct (play_game_end engine b2 w2) as [w3 [b3|e]]; cbn [snd] in R; [|done].
  injection R as ->. by intros [= _ <-].
Qed.

(** X13.  The script archives a game only when it has been played to its
    end: if [play_game] returns, the record of the board it returns is
    appended to the training file as the file stood before the game; if
    [play_game] raises, the script ends with that exception and no file
    has changed. *)
Theorem main_archives_finished_games_only (fuel : nat) (w : World) :
  match main fuel w with
  | Some (w', Ok _) =>
      ∃ w1 board,
        play_game fuel w = Some (w1, Ok board)
        ∧ is_game_over board = true
        ∧ files w' = <[TRAINING_DATA :=
                         default [] (files w !! TRAINING_DATA)
                           ++ str_of_game (pgn_game_of board (now w))
                           ++ [NEWLINE; NEWLINE]]> (files w)
  | Some (w', Raised e) =>
      play_game fuel w = Some (w', Raised e) ∧ files w' = files w
  | None => play_game fuel w = None
  end.
Proof.
  unfold main.
  destruct (play_game fuel w) as [[w1 [board|e]]|] eqn:P; [| |done].
  - destruct (play_game_keeps_to_its_own_frame _ _ _ _ P) as (F & N & _).
    destruct (save_game_data_effect board w1) as (w' & E & F' & _).
    rewrite E. exists w1, board. split; [done|].
    split; [by eapply play_game_over|]. by rewrite F', F, N.
  - split; [done|]. by destruct (play_game_keeps_to_its_own_frame _ _ _ _ P) as (F & _).
Qed.

End Further.

(** * The further properties in the arena *)

Section FurtherArena.
#[local] Existing Instance Scenario.provider.
#[local] Existing Instance Scenario.source.
#[local] Existing Instance Scenario.random.
#[local] Existing Instance Scenario.steady.
#[local] Existing Instance Scenario.runtime.

Lemma get_gemini_move_without_legal_moves_witness :
  ∃ w',
    get_gemini_move (provider := Position.provider []) (runtime := Position.runtime [])
        tt 3 (Position.world [] Scenario.always_raises)
      = (w', Raised (IndexError (lit "Cannot choose from an empty sequence")))
    ∧ length (transcript w')
        = length (transcript (Position.world [] Scenario.always_raises)) + Z.to_nat 3
    ∧ random_state w' = random_state (Position.world [] Scenario.always_raises).
Proof.
  apply (get_gemini_move_without_legal_moves (provider := Position.provider [])
           (runtime := Position.runtime [])).
  reflexivity.
Defined.

Lemma get_gemini_move_with_no_rounds_witness :
  let w := Scenario.world _ Scenario.third_time_lucky in
  get_gemini_move Scenario.after_e4 (-2) w = fallback Scenario.after_e4 w
  ∧ transcript (get_gemini_move Scenario.after_e4 (-2) w).1 = transcript w
  ∧ gemini (get_gemini_move Scenario.after_e4 (-2) w).1 = gemini w.
Proof.
  intros w. apply (get_gemini_move_with_no_rounds Scenario.after_e4 (-2) w). lia.
Defined.

Lemma the_only_legal_move_is_returned_witness :
  (get_gemini_move (provider := Position.provider [Scenario.e7e5])
     (runtime := Position.runtime [Scenario.e7e5])
     tt 3 (Position.world [Scenario.e7e5] Scenario.always_z9z9)).2 = Ok Scenario.e7e5.
Proof.
  apply (the_only_legal_move_is_returned (provider := Position.provider [Scenario.e7e5])
           (runtime := Position.runtime [Scenario.e7e5])).
  - reflexivity.
  - exact scenario_randbelow_in_range.
Defined.

Lemma listed_move_is_accepted_at_once_witness :
  let w := Scenario.world Scenario.steady ([], Ok (lit " `" ++ uci Scenario.e7e5 ++ lit "` ")) in
  ∃ w', get_gemini_move Scenario.after_e4 3 w = (w', Ok Scenario.e7e5)
        ∧ length (transcript w') = S (length (transcript w))
        ∧ random_state w' = random_state w.
Proof.
  intros w.
  apply (listed_move_is_accepted_at_once Scenario.after_e4 3 w (lit " `") (lit "` ")
           Scenario.e7e5).
  - lia.
  - reflexivity.
  - repeat constructor; vm_compute; tauto.
  - repeat constructor; vm_compute; tauto.
  - reflexivity.
  - vm_compute. apply list_elem_of_here.
Defined.

Lemma upper_case_answer_is_rejected_witness :
  let w := Scenario.world Scenario.steady ([], Ok (lit "E7E5")) in
  let prompt := initial_prompt Scenario.after_e4 (map uci (legal_moves Scenario.after_e4)) in
  (∃ e, proposed (Ok (map upper (uci Scenario.e7e5))) = Raised e)
  ∧ (attempt Scenario.after_e4 prompt w).2
      = Ok (Next (prompt ++ invalid_format_feedback ++ invalid_format_feedback)).
Proof.
  intros w prompt.
  apply (upper_case_answer_is_rejected Scenario.after_e4 prompt w Scenario.e7e5).
  - reflexivity.
  - reflexivity.
Defined.

Lemma play_game_keeps_to_its_own_witness :
  let w := Scenario.world Scenario.steady Scenario.third_time_lucky in
  ∃ w' r,
    play_game 10 w = Some (w', r)
    ∧ files w' = files w ∧ now w' = now w
    ∧ take (length (processes w)) (processes w') = processes w
    ∧ length (processes w) ≤ length (processes w').
Proof.
  intros w. eexists _, _. split; [vm_compute; reflexivity|].
  eapply (play_game_keeps_to_its_own 10 w). vm_compute. reflexivity.
Defined.

Lemma play_game_without_engine_witness :
  let w := Scenario.world Position.missing_engine Scenario.third_time_lucky in
  let e := Fault (lit "[Errno 2] No such file or directory") in
  play_game (opponent := Position.missing_engine) 10 w = Some (w, Raised e)
  ∧ main (opponent := Position.missing_engine) 10 w = Some (w, Raised e).
Proof.
  intros w e.
  apply (play_game_without_engine (opponent := Position.missing_engine) 10 w e).
  reflexivity.
Defined.

Lemma play_game_calls_the_model_thrice_a_move_at_most_witness :
  let w := Scenario.world Scenario.steady Scenario.third_time_lucky in
  ∃ w' board game_moves,
    play_game_log 10 w = Some (w', Ok (board, game_moves))
    ∧ length (transcript w') ≤ length (transcript w) + 3 * length game_moves.
Proof.
  intros w. eexists _, _, _. split; [vm_compute; reflexivity|].
  eapply (play_game_calls_the_model_thrice_a_move_at_most 10 w). vm_compute. reflexivity.
Defined.

(** The script in the arena: a game of four plies, archived. *)
Example main_in_the_arena :
  ∃ w', main 10 (Scenario.world Scenario.steady Scenario.third_time_lucky) = Some (w', Ok ())
        ∧ length (transcript w') = 4
        ∧ quit_called w' = [false; true]
        ∧ is_Some (files w' !! TRAINING_DATA).
Proof.
  eexists. split; [vm_compute; reflexivity|].
  split; [vm_compute; reflexivity|]. split; [vm_compute; reflexivity|].
  vm_compute. eexists. reflexivity.
Qed.

End FurtherArena.
